(** * lammps_logfile.File: the log segmenter and the settings extractor

    A shallow embedding of [src/lammps_logfile/File.py].  The class [File]
    reads a LAMMPS log, cuts it into thermo blocks, keeps one column
    dictionary per run and one aggregated over the runs, and derives the
    simulation settings of each run from the text between the blocks.

    Conventions of the embedding:
    - a Python [str] is a [string]; a character stands for the code point of
      the same number, so the model covers text whose code points are below
      256;
    - a Python [dict] is a [gmap]; every use the class makes of a dictionary
      (lookup, store, [update], [keys], [sorted(keys)]) is independent of the
      insertion order;
    - a method that mutates [self] takes the object and returns the new one;
    - a Python exception is the [Raised] outcome;
    - [pandas.read_table] and [float] belong to other packages and are taken
      as parameters (class [Externals]). *)

From Stdlib Require Import Ascii ZArith Lia.
From stdpp Require Import gmap strings list fin_maps sorting.

Local Open Scope Z_scope.
Local Open Scope nat_scope.

(** ** Python strings *)

Module PyStr.

Definition LF : ascii := "010"%char.
Definition nl : string := String LF EmptyString.

(** [str.isspace] of one character, for code points below 256. *)
Definition isspace (c : ascii) : bool :=
  let n := nat_of_ascii c in
  ((9 <=? n) && (n <=? 13)) || ((28 <=? n) && (n <=? 32))
  || (n =? 133) || (n =? 160).

(** [s.startswith(p)] *)
Fixpoint startswith (s p : string) : bool :=
  match p, s with
  | EmptyString, _ => true
  | String _ _, EmptyString => false
  | String b p', String a s' =>
      if decide (a = b) then startswith s' p' else false
  end.

(** [sub in s] *)
Fixpoint contains (sub s : string) : bool :=
  startswith s sub ||
  match s with
  | EmptyString => false
  | String _ s' => contains sub s'
  end.

Fixpoint lstrip (s : string) : string :=
  match s with
  | EmptyString => EmptyString
  | String c s' => if isspace c then lstrip s' else s
  end.

Fixpoint rstrip (s : string) : string :=
  match s with
  | EmptyString => EmptyString
  | String c s' =>
      match rstrip s' with
      | EmptyString => if isspace c then EmptyString else String c EmptyString
      | r => String c r
      end
  end.

(** [s.strip()] *)
Definition strip (s : string) : string := rstrip (lstrip s).

Definition snoc (s : string) (c : ascii) : string := s +:+ String c EmptyString.

Definition emit (cur : string) (k : list string) : list string :=
  match cur with EmptyString => k | _ => cur :: k end.

(** [s.split()]: the maximal runs of characters that are not white space;
    [cur] is the run being read. *)
Fixpoint split_from (cur s : string) : list string :=
  match s with
  | EmptyString => emit cur []
  | String c s' =>
      if isspace c then emit cur (split_from EmptyString s')
      else split_from (snoc cur c) s'
  end.

Definition split (s : string) : list string := split_from EmptyString s.

(** [s.split(sep)] for a separator of one character: never empty. *)
Fixpoint split_on_from (sep : ascii) (cur s : string) : list string :=
  match s with
  | EmptyString => [cur]
  | String c s' =>
      if decide (c = sep) then cur :: split_on_from sep EmptyString s'
      else split_on_from sep (snoc cur c) s'
  end.

Definition split_on (sep : ascii) (s : string) : list string :=
  split_on_from sep EmptyString s.

(** [sep.join(parts)] *)
Fixpoint join (sep : string) (parts : list string) : string :=
  match parts with
  | [] => EmptyString
  | [p] => p
  | p :: rest => p +:+ sep +:+ join sep rest
  end.

(** The characters at which [str.splitlines] cuts (code points below 256). *)
Definition islinebreak (c : ascii) : bool :=
  let n := nat_of_ascii c in
  ((10 <=? n) && (n <=? 13)) || ((28 <=? n) && (n <=? 30)) || (n =? 133).

(** [s.splitlines()]: a carriage return directly followed by a line feed
    is one break; [after_cr] says that the previous character was a
    carriage return that has already closed its line. *)
Fixpoint splitlines_from (after_cr : bool) (cur s : string) : list string :=
  match s with
  | EmptyString => emit cur []
  | String c s' =>
      if after_cr && bool_decide (c = LF) then splitlines_from false cur s'
      else if islinebreak c
      then cur :: splitlines_from (bool_decide (c = "013"%char)) EmptyString s'
      else splitlines_from false (snoc cur c) s'
  end.

Definition splitlines (s : string) : list string :=
  splitlines_from false EmptyString s.

(** [sorted(l)] on strings (code point order), by insertion. *)
Fixpoint insert_sorted (x : string) (l : list string) : list string :=
  match l with
  | [] => [x]
  | y :: l' => if String.leb x y then x :: l else y :: insert_sorted x l'
  end.

Definition sorted (l : list string) : list string :=
  foldr insert_sorted [] l.

(** [sum(bs) >= 1] for a list of booleans *)
Definition sum_ge_1 (bs : list bool) : bool :=
  1 <=? sum_list (Nat.b2n <$> bs).

End PyStr.
Import PyStr.

(** ** Outcomes *)

(** What a method raises, told apart by the place that raises it, not by
    Python's exception classes: [KeyError] and [IndexError] are the failing
    subscripts of the class itself, [ValueError] is the [raise] statement of
    [parse_simulation_settings] (line 112), and [ParserError] stands for
    whatever [pandas.read_table] raises at line 65.  In pandas some of those
    exceptions are subclasses of Python's [ValueError]; a handler
    [except ValueError] would catch them as well as the one of line 112.
    Errors of the stream ([open], [readlines]) are outside the model: the
    input is the list of lines the stream delivered. *)
Inductive exn : Set :=
| KeyError        (* a missing dictionary key or data frame column *)
| IndexError      (* a list index out of range *)
| ValueError      (* the [raise] of [parse_simulation_settings] *)
| ParserError.    (* anything [pandas.read_table] raises *)

(** The result of running a method: it returns, it raises, or the embedding
    ran out of the fuel that bounds the [while] loop. *)
Inductive outcome (A : Type) : Type :=
| Done (a : A)
| Raised (e : exn)
| OutOfFuel.
Arguments Done {A} a.
Arguments Raised {A} e.
Arguments OutOfFuel {A}.

Definition bind {A B} (m : outcome A) (k : A → outcome B) : outcome B :=
  match m with
  | Done a => k a
  | Raised e => Raised e
  | OutOfFuel => OutOfFuel
  end.

Notation "'do' x <- m ; k" := (bind m (fun x => k))
  (at level 20, x pattern, m at level 100, k at level 200).

(** [d[k]] on a dictionary *)
Definition getitem {V} (d : gmap string V) (k : string) : outcome V :=
  match d !! k with Some v => Done v | None => Raised KeyError end.

(** [l[i]] on a list, with Python's negative indices *)
Definition index {A} (l : list A) (i : Z) : outcome A :=
  let n := Z.of_nat (length l) in
  let j := if (i <? 0)%Z then (i + n)%Z else i in
  if ((0 <=? j) && (j <? n))%Z
  then match l !! Z.to_nat j with
       | Some x => Done x
       | None => Raised IndexError
       end
  else Raised IndexError.

(** [d.update(other)] *)
Definition update {V} (d other : gmap string V) : gmap string V := other ∪ d.

(** ** The collaborators outside the package *)

(** What [pandas.read_table] returns: the column labels and the rows.  A
    row shorter than the header is read as padded with [nan]. *)
Record DataFrame (cell : Type) : Type := {
  df_columns : list string;
  df_rows : list (list cell)
}.
Arguments df_columns {cell} _.
Arguments df_rows {cell} _.

Class Externals : Type := {
  (** an entry of a numeric column *)
  cell : Type;
  nan : cell;
  (** [pd.read_table(StringIO(text), sep=r'\s+')]; [None] when it raises *)
  read_table : string → option (DataFrame cell);
  (** a Python float *)
  number : Type;
  (** [float(token)]; [None] when it raises [ValueError] *)
  float : string → option number
}.

(** A value of the settings dictionary: [float] or [str]. *)
Inductive setting_of (number : Type) : Type :=
| SNum (x : number)
| SStr (s : string).
Arguments SNum {number} x.
Arguments SStr {number} s.

(** The attributes of a [File] object.  [logfile] holds the lines the
    stream has not delivered yet: [readlines()] returns them and leaves
    none.  The attribute [partial_dict] is only a handle on the dictionary
    that is appended to [partial_logs]; it is a local in the model. *)
Record File_of (cell number : Type) : Type := mkFile {
  data_dict : gmap string (list cell);
  keywords : list string;
  output_before_first_run : string;
  partial_logs : list (gmap string (list cell));
  intermittent_output : list (list string);
  simulation_settings : gmap string (setting_of number);
  partial_simulation_settings : list (gmap string (setting_of number));
  logfile : list string
}.
Arguments mkFile {cell number}.
Arguments data_dict {cell number} _.
Arguments keywords {cell number} _.
Arguments output_before_first_run {cell number} _.
Arguments partial_logs {cell number} _.
Arguments intermittent_output {cell number} _.
Arguments simulation_settings {cell number} _.
Arguments partial_simulation_settings {cell number} _.
Arguments logfile {cell number} _.

(** The settings and the objects over the cells and the floats of the
    collaborators at hand. *)
Abbreviation setting := (setting_of number) (only parsing).
Abbreviation File := (File_of cell number) (only parsing).

Fixpoint position (name : string) (l : list string) : option nat :=
  match l with
  | [] => None
  | x :: l' => if decide (x = name) then Some 0 else S <$> position name l'
  end.

Section Model.
Context `{E : Externals}.

Definition df_nrows (df : DataFrame cell) : nat := length (df_rows df).

(** [df[name]]: the column labelled [name], one entry per row *)
Definition df_getitem (df : DataFrame cell) (name : string)
  : outcome (list cell) :=
  match position name (df_columns df) with
  | Some j => Done ((λ row, nth j row nan) <$> df_rows df)
  | None => Raised KeyError
  end.

Definition start_thermo_strings : list string :=
  ["Memory usage per processor"; "Per MPI rank memory allocation"].
Definition stop_thermo_strings : list string :=
  ["Loop time"; "ERROR"; "Fix halt condition"].

(** The state [__init__] sets up before it calls the two passes. *)
Definition new (ifile : list string) : File :=
  mkFile ∅ [] EmptyString [] [] ∅ [] ifile.

Definition set_data_dict (self : File) v : File :=
  mkFile v (keywords self) (output_before_first_run self)
    (partial_logs self) (intermittent_output self)
    (simulation_settings self) (partial_simulation_settings self)
    (logfile self).
Definition set_keywords (self : File) v : File :=
  mkFile (data_dict self) v (output_before_first_run self)
    (partial_logs self) (intermittent_output self)
    (simulation_settings self) (partial_simulation_settings self)
    (logfile self).
Definition set_output_before_first_run (self : File) v : File :=
  mkFile (data_dict self) (keywords self) v
    (partial_logs self) (intermittent_output self)
    (simulation_settings self) (partial_simulation_settings self)
    (logfile self).
Definition set_partial_logs (self : File) v : File :=
  mkFile (data_dict self) (keywords self) (output_before_first_run self)
    v (intermittent_output self)
    (simulation_settings self) (partial_simulation_settings self)
    (logfile self).
Definition set_intermittent_output (self : File) v : File :=
  mkFile (data_dict self) (keywords self) (output_before_first_run self)
    (partial_logs self) v
    (simulation_settings self) (partial_simulation_settings self)
    (logfile self).
Definition set_simulation_settings (self : File) v : File :=
  mkFile (data_dict self) (keywords self) (output_before_first_run self)
    (partial_logs self) (intermittent_output self)
    v (partial_simulation_settings self)
    (logfile self).
Definition set_partial_simulation_settings (self : File) v : File :=
  mkFile (data_dict self) (keywords self) (output_before_first_run self)
    (partial_logs self) (intermittent_output self)
    (simulation_settings self) v
    (logfile self).
Definition set_logfile (self : File) v : File :=
  mkFile (data_dict self) (keywords self) (output_before_first_run self)
    (partial_logs self) (intermittent_output self)
    (simulation_settings self) (partial_simulation_settings self)
    v.

(** *** read_file_to_dict *)

(** [sum([string in line for string in self.stop_thermo_strings]) >= 1] *)
Definition has_stop (line : string) : bool :=
  sum_ge_1 ((λ s, contains s line) <$> stop_thermo_strings).

(** [sum([line.startswith(string) for string in
    self.start_thermo_strings]) >= 1] *)
Definition has_start (line : string) : bool :=
  sum_ge_1 ((λ s, startswith line s) <$> start_thermo_strings).

(** The inner [while] (lines 56-64): from the header line on, lines are
    gathered in [tmpString] until one holds a stop string or the input
    ends.  It returns [tmpString], the line it stopped at and the lines
    after that one; after the [break] there are none. *)
Fixpoint gather (line : string) (rest : list string) (tmpString : string)
  : string * string * list string :=
  if has_stop line then (tmpString, line, rest)
  else
    let tmpString :=
      if contains nl line then tmpString +:+ line else tmpString in
    match rest with
    | [] => (tmpString, line, [])
    | line' :: rest' => gather line' rest' tmpString
    end.

Definition flush_dict_and_set_new_keyword (self : File)
    (keywords : list string) : File :=
  let data_dict := foldl (λ d entry, <[entry := []]> d) ∅ keywords in
  set_keywords (set_data_dict self data_dict) keywords.

(** The [for name in keywords] loop (lines 75-79): [dd] is
    [self.data_dict], [pd] is [self.partial_dict]. *)
Fixpoint merge_columns (df : DataFrame cell) (names : list string)
    (dd pd : gmap string (list cell))
  : outcome (gmap string (list cell) * gmap string (list cell)) :=
  match names with
  | [] => Done (dd, pd)
  | name :: names' =>
      do old <- getitem dd name;
      do col <- df_getitem df name;
      merge_columns df names' (<[name := old ++ col]> dd)
                              (<[name := [] ++ col]> pd)
  end.

(** Lines 68-80: what a parsed block does to the object. *)
Definition absorb (self : File) (kws : list string) (df : DataFrame cell)
  : outcome File :=
  let self :=
    if bool_decide (keywords self ≠ kws)
    then flush_dict_and_set_new_keyword self kws else self in
  do (dd, pd) <- merge_columns df kws (data_dict self) ∅;
  let self := set_data_dict self dd in
  Done (set_partial_logs self (partial_logs self ++ [pd])).

(** The outer [while] (lines 44-94).  [contents] holds the lines from
    index [i] on; every turn takes at least one of them, so [fuel] equal
    to their number is enough. *)
Fixpoint read_loop (fuel : nat) (self : File)
    (keyword_flag before_first_run_flag intermittent_output_flag : bool)
    (intermittent_output_tmp : list string) (contents : list string)
    {struct fuel} : outcome File :=
  match contents with
  | [] => Done self
  | line :: rest =>
    match fuel with
    | 0 => OutOfFuel
    | S fuel =>
      let self :=
        if before_first_run_flag
        then set_output_before_first_run self
               (output_before_first_run self +:+ line)
        else self in
      let intermittent_output_tmp :=
        if intermittent_output_flag
        then intermittent_output_tmp ++ [line]
        else intermittent_output_tmp in
      if keyword_flag then
        let kws := split line in
        let '(tmpString, line, rest) := gather line rest EmptyString in
        match read_table tmpString with
        | None => Raised ParserError
        | Some partialLogContents =>
          do self <- absorb self kws partialLogContents;
          let self := set_intermittent_output self
                (intermittent_output self ++ [intermittent_output_tmp]) in
          if has_start line
          then read_loop fuel self true false false [] rest
          else read_loop fuel self false before_first_run_flag true [] rest
        end
      else
        if has_start line
        then read_loop fuel self true false false
               intermittent_output_tmp rest
        else read_loop fuel self false before_first_run_flag
               intermittent_output_flag intermittent_output_tmp rest
    end
  end.

Definition read_file_to_dict (self : File) : outcome File :=
  let contents := logfile self in
  let self := set_logfile self [] in
  do self <- read_loop (length contents) self false true false [] contents;
  Done (set_intermittent_output self (tail (intermittent_output self))).

(** *** parse_simulation_settings *)

Definition sim_settings_kws : list string :=
  ["units"; "timestep"; "boundary"; "atom_style"; "pair_style";
   "bond_style"; "angle_style"; "dihedral_style"; "improper_style"].

(** The value stored for a keyword (lines 131-138). *)
Definition setting_of_parts (parts : list string) : setting :=
  match parts with
  | [p] => match float p with Some x => SNum x | None => SStr p end
  | _ => SStr (join " " parts)
  end.

(** One turn of [for kw in sim_settings_kws]; the comment is cut off the
    variable [line] itself, so later turns see the shortened line. *)
Definition parse_kw (st : string * gmap string setting) (kw : string)
  : string * gmap string setting :=
  let '(line, settings) := st in
  if startswith (strip line) kw then
    let line := hd EmptyString (split_on "#"%char line) in
    let parts := strip <$> tail (split line) in
    (line, <[kw := setting_of_parts parts]> settings)
  else (line, settings).

Definition parse_line (line : string) : gmap string setting :=
  snd (foldl parse_kw (line, ∅) sim_settings_kws).

(** [for line in lines: d.update(parse_line(line))] *)
Definition overlay (d : gmap string setting) (lines : list string)
  : gmap string setting :=
  foldl (λ d line, update d (parse_line line)) d lines.

(** One turn of [for part in self.intermittent_output] (lines 147-156). *)
Definition settings_step (self : File) (part : list string) : File :=
  let tmp_settings := overlay (simulation_settings self) part in
  let self := set_partial_simulation_settings self
                (partial_simulation_settings self ++ [tmp_settings]) in
  set_simulation_settings self
    (update (simulation_settings self) tmp_settings).

(** Lines 141-156. *)
Definition extract_settings (self : File) : File :=
  let self := set_simulation_settings self
    (overlay (simulation_settings self)
       (splitlines (output_before_first_run self))) in
  let self := set_partial_simulation_settings self
    (partial_simulation_settings self ++ [simulation_settings self]) in
  foldl settings_step self (intermittent_output self).

Definition parse_simulation_settings (self : File) : outcome File :=
  if decide (output_before_first_run self = EmptyString) then
    do self <- read_file_to_dict self;
    if decide (output_before_first_run self = EmptyString)
    then Raised ValueError
    else Done (extract_settings self)
  else Done (extract_settings self).

(** [File(ifile)] for a stream that delivers the lines [ifile]. *)
Definition init (ifile : list string) : outcome File :=
  do self <- read_file_to_dict (new ifile);
  parse_simulation_settings self.

(** *** The accessors *)

(** [None] is Python's [None]. *)
Definition get (self : File) (entry_name : string) (run_num : Z)
  : outcome (option (list cell)) :=
  if decide (run_num = (-1)%Z) then
    match data_dict self !! entry_name with
    | Some v => Done (Some v)
    | None => Done None
    end
  else
    if (run_num <? Z.of_nat (length (partial_logs self)))%Z then
      do partial_log <- index (partial_logs self) run_num;
      match partial_log !! entry_name with
      | Some v => Done (Some v)
      | None => Done None
      end
    else Done None.

Definition dict_keys {V} (d : gmap string V) : list string :=
  fst <$> map_to_list d.

Definition get_keywords (self : File) (run_num : Z)
  : outcome (option (list string)) :=
  if decide (run_num = (-1)%Z) then Done (Some (sorted (keywords self)))
  else
    if (run_num <? Z.of_nat (length (partial_logs self)))%Z then
      do partial_log <- index (partial_logs self) run_num;
      Done (Some (sorted (dict_keys partial_log)))
    else Done None.

Definition get_num_partial_logs (self : File) : nat :=
  length (partial_logs self).

Definition get_simulation_settings (self : File) (run_num : Z)
  : outcome (gmap string setting) :=
  index (partial_simulation_settings self) run_num.

End Model.

(** ** The shape of a log

    A log is described from the outside, without running the reader: some
    narrative lines, then the thermo blocks.  A block is the line that
    announces it (it starts with a start string), the header line, the data
    rows, the line that ends it (it holds a stop string) and the narrative
    up to the next block.  Only the last block may lack its closing line,
    when the log ends inside it. *)

Definition text (lines : list string) : string :=
  foldr String.append EmptyString lines.

Record block : Type := {
  b_start : string;
  b_header : string;
  b_rows : list string;
  b_stop : option string;
  b_gap : list string
}.

Definition block_lines (b : block) : list string :=
  b_start b :: b_header b :: b_rows b ++ option_list (b_stop b) ++ b_gap b.

Definition log_lines (pre : list string) (blocks : list block) : list string :=
  pre ++ concat (block_lines <$> blocks).

(** The column set of a block: the words of its header line. *)
Definition block_keywords (b : block) : list string := split (b_header b).

(** What is handed to the table parser: the header and the rows, those of
    them that end in a line feed. *)
Definition block_text (b : block) : string :=
  text (List.filter (contains nl) (b_header b :: b_rows b)).

Section Logs.
Context `{E : Externals}.

Definition block_ok (is_last : bool) (b : block) : bool :=
  has_start (b_start b)
  && forallb (λ l, negb (has_stop l)) (b_header b :: b_rows b)
  && match b_stop b with
     | Some t => has_stop t && negb (has_start t)
     | None => is_last && match b_gap b with [] => true | _ => false end
     end
  && forallb (λ l, negb (has_start l)) (b_gap b).

Fixpoint blocks_ok (blocks : list block) : bool :=
  match blocks with
  | [] => true
  | b :: blocks' =>
      block_ok (match blocks' with [] => true | _ => false end) b
      && blocks_ok blocks'
  end.

Definition log_ok (pre : list string) (blocks : list block) : bool :=
  forallb (λ l, negb (has_start l)) pre && blocks_ok blocks.

(** The parser accepts the block and delivers every column of its column
    set. *)
Definition block_parses (b : block) : bool :=
  match read_table (block_text b) with
  | Some df =>
      forallb (λ name, bool_decide (is_Some (position name (df_columns df))))
        (block_keywords b)
  | None => false
  end.

(** The number of rows the parser finds in the block. *)
Definition block_nrows (b : block) : nat :=
  match read_table (block_text b) with
  | Some df => df_nrows df
  | None => 0
  end.

Definition df_column (df : DataFrame cell) (name : string) : list cell :=
  match df_getitem df name with Done col => col | _ => [] end.

(** The values the parser finds in one column of the block. *)
Definition block_column (b : block) (name : string) : list cell :=
  match read_table (block_text b) with
  | Some df => df_column df name
  | None => []
  end.

(** The per-run dictionary of a parsed block: its columns, by name. *)
Definition run_dict (kws : list string) (df : DataFrame cell)
    (pd : gmap string (list cell)) : Prop :=
  ∀ n : string,
    pd !! n = if decide (n ∈ kws) then Some (df_column df n) else None.

(** The aggregate a block of column set [kws] is merged into: the one at
    hand when the column set is unchanged, a fresh one otherwise. *)
Definition merge_base (self : File) (kws : list string) (n : string)
  : option (list cell) :=
  if decide (keywords self = kws) then data_dict self !! n
  else if decide (n ∈ kws) then Some [] else None.

(** The column set the reader tracks after the blocks [seen]. *)
Definition last_keywords (seen : list block) : list string :=
  from_option block_keywords [] (last seen).

(** A column gathered over consecutive blocks. *)
Definition epoch_column (epoch : list block) (name : string) : list cell :=
  concat ((λ b, block_column b name) <$> epoch).

(** The per-run dictionary of a block holds the columns of its column
    set, as the parser delivers them, and nothing else. *)
Definition run_dict_of (b : block) (pd : gmap string (list cell)) : Prop :=
  ∀ n : string,
    pd !! n = if decide (n ∈ block_keywords b)
              then Some (block_column b n) else None.

(** What holds of the object once the blocks [seen] are read, in a log
    whose last blocks, those after [before], share the column set [K]. *)
Definition seen_inv (before : list block) (K : list string)
    (seen : list block) (self : File) : Prop :=
  Forall2 run_dict_of seen (partial_logs self)
  ∧ (∀ n : string, n ∈ keywords self → is_Some (data_dict self !! n))
  ∧ keywords self = last_keywords seen
  ∧ (seen = [] → data_dict self = ∅)
  ∧ (∀ e, e ≠ [] → seen = before ++ e →
       ∀ n : string,
         data_dict self !! n
         = if decide (n ∈ K) then Some (epoch_column e n) else None).

(** The snapshots that follow a snapshot [s]: one per narrative chunk,
    each the overlay of the chunk on the one before. *)
Fixpoint snapshots_from (s : gmap string setting)
    (chunks : list (list string)) : list (gmap string setting) :=
  match chunks with
  | [] => []
  | chunk :: chunks' =>
      overlay s chunk :: snapshots_from (overlay s chunk) chunks'
  end.

(** The rule for a settings line in the words of the specification:
    after the leading white space is trimmed, the line begins with one of
    the recognized names followed by a white space character. *)
Definition name_then_space (line : string) : bool :=
  existsb
    (λ kw, startswith (lstrip line) kw
           && match String.get (String.length kw) (lstrip line) with
              | Some c => isspace c
              | None => false
              end)
    sim_settings_kws.

End Logs.

(** ** A stand-in for the collaborators, to run the model on examples *)

Module Demo.

(** Reads the first line as the header and every further line as a row of
    text cells; an empty text is refused, as pandas refuses it. *)
Definition read_table (text : string) : option (DataFrame string) :=
  match splitlines text with
  | [] => None
  | header :: rows =>
      Some {| df_columns := split header; df_rows := split <$> rows |}
  end.

Fixpoint digits_or_dot (s : string) : bool :=
  match s with
  | EmptyString => true
  | String c s' =>
      (bool_decide (c = "."%char) || bool_decide (is_Some (Ascii.is_nat c)))
      && digits_or_dot s'
  end.

(** Accepts the plain decimal numerals and keeps their text. *)
Definition float (s : string) : option string :=
  match s with
  | EmptyString => None
  | _ => if digits_or_dot s then Some s else None
  end.

Definition externals : Externals :=
  Build_Externals string "nan" read_table string float.

Definition line (s : string) : string := s +:+ nl.

Definition header : list string :=
  line <$> ["units lj"; "timestep 0.005"].

Definition memory_line : string :=
  line "Per MPI rank memory allocation (min/avg/max) = 3 | 3 | 3 Mbytes".
Definition loop_line : string :=
  line "Loop time of 0.1 on 1 procs for 1 steps".

Definition run1 : block :=
  {| b_start := memory_line;
     b_header := line "Step Temp";
     b_rows := line <$> ["0 1.0"; "1 1.1"];
     b_stop := Some loop_line;
     b_gap := [line "timestep 0.01"] |}.

Definition run2 : block :=
  {| b_start := memory_line;
     b_header := line "Step Temp";
     b_rows := [line "2 1.2"];
     b_stop := Some loop_line;
     b_gap := [line "pair_style lj/cut 2.5"] |}.

Definition run3 : block :=
  {| b_start := memory_line;
     b_header := line "Step Temp Press";
     b_rows := line <$> ["3 1.3 0.5"; "4 1.4 0.6"];
     b_stop := Some loop_line;
     b_gap := [] |}.

(** A log with two runs of the same columns, and one with a third run
    that adds a column. *)
Definition two_runs : list string := log_lines header [run1; run2].
Definition three_runs : list string :=
  log_lines header ([run1] ++ run2 :: [run3]).

(** A log without any run. *)
Definition no_run : list string := [line "units lj"].

(** The object a second call of the settings pass returns. *)
Definition extracted_again (self : File_of string string)
  : File_of string string :=
  match @parse_simulation_settings externals self with
  | Done self2 => self2
  | _ => self
  end.

(** A settings snapshot of a constructed object. *)
Definition snapshot (self : File_of string string) (run : nat)
  : gmap string (setting_of string) :=
  default ∅ (partial_simulation_settings self !! run).

(** The object the constructor returns on a log. *)
Definition constructed (ifile : list string) : File_of string string :=
  match @init externals ifile with
  | Done self => self
  | _ => @new externals []
  end.

End Demo.

(** ** The remaining methods *)

Section Methods.
Context `{E : Externals}.

(** [to_dataframe(run_num)]: the per-run dictionary that is handed to
    [pd.DataFrame].  The index goes straight to the list, so -1 is the last
    run here, not the aggregate. *)
Definition to_dataframe (self : File) (run_num : Z)
  : outcome (gmap string (list cell)) :=
  index (partial_logs self) run_num.

(** The property [names]. *)
Definition names (self : File) : outcome (option (list string)) :=
  get_keywords self (-1).

End Methods.

(** ** The narrative between the blocks *)

(** The narrative chunks of a log, read off its blocks: the chunk between
    two blocks is the narrative after the first and the line that
    announces the second.  What follows the last block is in no chunk. *)
Fixpoint chunks_between (blocks : list block) : list (list string) :=
  match blocks with
  | b1 :: (b2 :: _) as rest =>
      (b_gap b1 ++ [b_start b2]) :: chunks_between rest
  | _ => []
  end.

(** The chunks the reader closes while it reads [blocks], when it enters
    them with the buffer [tmp], collecting or not ([io]). *)
Fixpoint chunks_from (tmp : list string) (io : bool) (blocks : list block)
  : list (list string) :=
  match blocks with
  | [] => []
  | b :: blocks' =>
      (if io then tmp ++ [b_start b] else tmp)
      :: chunks_from (b_gap b) true blocks'
  end.

(** No name of the list begins with another name of the list. *)
Fixpoint apart (kws : list string) : bool :=
  match kws with
  | [] => true
  | kw :: kws' =>
      forallb (λ kw', negb (startswith kw kw') && negb (startswith kw' kw))
        kws'
      && apart kws'
  end.

(** The number of lines that start with a start string. *)
Definition start_lines (contents : list string) : nat :=
  length (List.filter has_start contents).

(** The line before a header line, in the lines [before] it: a start line,
    unless there is none and the loop was entered with the keyword flag
    set. *)
Definition announced (kf : bool) (before : list string) : Prop :=
  match last before with
  | Some start => has_start start = true
  | None => kf = true
  end.

Section Invariants.
Context `{E : Externals}.

(** The names that have an entry in the aggregate are the tracked column
    names. *)
Definition keys_match (self : File) : Prop :=
  ∀ n : string, is_Some (data_dict self !! n) ↔ n ∈ keywords self.

(** What holds of the object once the blocks [seen] are read, whatever
    their column sets. *)
Definition runs_inv (seen : list block) (self : File) : Prop :=
  Forall2 run_dict_of seen (partial_logs self)
  ∧ (∀ n : string, n ∈ keywords self → is_Some (data_dict self !! n))
  ∧ keywords self = last_keywords seen.

End Invariants.

(** ** More example logs *)

Module Samples.
Import Demo.

(** A table parser that finds no column at all, whatever the text. *)
Definition read_table_no_columns (text : string)
  : option (DataFrame string) :=
  Some {| df_columns := []; df_rows := [] |}.

Definition no_columns : Externals :=
  Build_Externals string "nan" read_table_no_columns string float.

(** A log with one run. *)
Definition one_run : list string := log_lines header [run1].

End Samples.

(** * Properties *)

Global Arguments has_stop : simpl never.
Global Arguments has_start : simpl never.

(** ** Strings and texts *)

Lemma append_cons a s t : String a s +:+ t = String a (s +:+ t).
Proof. reflexivity. Qed.

Lemma append_nil_l s : EmptyString +:+ s = s.
Proof. reflexivity. Qed.

Lemma append_nil_r s : s +:+ EmptyString = s.
Proof. induction s as [|a s IH]; [done|]. by rewrite append_cons, IH. Qed.

Lemma append_assoc s t u : (s +:+ t) +:+ u = s +:+ (t +:+ u).
Proof. induction s as [|a s IH]; [done|]. by rewrite !append_cons, IH. Qed.

Lemma append_nonempty_r s t : t ≠ EmptyString → s +:+ t ≠ EmptyString.
Proof. destruct s; [done|]. by rewrite append_cons. Qed.

Lemma text_app l1 l2 : text (l1 ++ l2) = text l1 +:+ text l2.
Proof.
  induction l1 as [|l l1 IH]; [done|].
  cbn [text foldr app]. fold (text (l1 ++ l2)) (text l1).
  by rewrite IH, append_assoc.
Qed.

Lemma text_snoc ls l : text (ls ++ [l]) = text ls +:+ l.
Proof. rewrite text_app. cbn [text foldr]. by rewrite append_nil_r. Qed.

Section Reader.
Context `{E : Externals}.
Implicit Types (self st : File) (line : string) (contents : list string).

Lemma has_start_nonempty line : has_start line = true → line ≠ EmptyString.
Proof. by intros H ->. Qed.

(** *** The inner loop *)

Lemma gather_eq line rest acc :
  gather line rest acc =
    if has_stop line then (acc, line, rest)
    else
      let acc' := if contains nl line then acc +:+ line else acc in
      match rest with
      | [] => (acc', line, [])
      | line' :: rest' => gather line' rest' acc'
      end.
Proof. by destruct rest. Qed.

Lemma gather_rest_length line rest acc :
  length (gather line rest acc).2 ≤ length rest.
Proof.
  revert line acc. induction rest as [|l rest IH]; intros line acc;
    rewrite gather_eq; destruct (has_stop line); cbn [snd length]; try lia.
  match goal with
  | |- context [gather ?a rest ?b] => pose proof (IH a b)
  end. lia.
Qed.

Lemma text_filter_cons h rows acc :
  (if contains nl h then acc +:+ h else acc)
    +:+ text (List.filter (contains nl) rows)
  = acc +:+ text (List.filter (contains nl) (h :: rows)).
Proof.
  cbn [List.filter]. destruct (contains nl h); [|done].
  change (text (h :: ?l)) with (h +:+ text l). by rewrite append_assoc.
Qed.

(** A block that is closed by a stop line [t]. *)
Lemma gather_closed h rows t rest acc :
  forallb (λ l, negb (has_stop l)) (h :: rows) = true →
  has_stop t = true →
  gather h (rows ++ t :: rest) acc
  = (acc +:+ text (List.filter (contains nl) (h :: rows)), t, rest).
Proof.
  revert h acc. induction rows as [|r rows IH]; intros h acc Hrows Ht;
    cbn [forallb] in Hrows; apply andb_true_iff in Hrows as [Hh Hrows];
    apply negb_true_iff in Hh; rewrite gather_eq, Hh; cbn [app].
  - rewrite gather_eq, Ht. rewrite <- text_filter_cons.
    cbn. by rewrite append_nil_r.
  - cbv zeta. rewrite (IH r _ Hrows Ht). by rewrite text_filter_cons.
Qed.

(** A block that runs to the end of the input. *)
Lemma gather_open h rows acc :
  forallb (λ l, negb (has_stop l)) (h :: rows) = true →
  ∃ line, gather h rows acc
    = (acc +:+ text (List.filter (contains nl) (h :: rows)), line, []).
Proof.
  revert h acc. induction rows as [|r rows IH]; intros h acc Hrows;
    cbn [forallb] in Hrows; apply andb_true_iff in Hrows as [Hh Hrows];
    apply negb_true_iff in Hh; rewrite gather_eq, Hh.
  - exists h. rewrite <- text_filter_cons. cbn. by rewrite append_nil_r.
  - cbv zeta. destruct (IH r (if contains nl h then acc +:+ h else acc) Hrows)
      as [line ->].
    exists line. by rewrite text_filter_cons.
Qed.

(** *** The outer loop *)

Lemma read_loop_nil fuel self kf bf io tmp :
  read_loop fuel self kf bf io tmp [] = Done self.
Proof. by destruct fuel. Qed.

Lemma read_loop_cons fuel self kf bf io tmp line rest :
  read_loop (S fuel) self kf bf io tmp (line :: rest) =
    let self :=
      if bf
      then set_output_before_first_run self
             (output_before_first_run self +:+ line)
      else self in
    let tmp := if io then tmp ++ [line] else tmp in
    if kf then
      let kws := split line in
      let '(tmpString, line, rest) := gather line rest EmptyString in
      match read_table tmpString with
      | None => Raised ParserError
      | Some df =>
        do self <- absorb self kws df;
        let self := set_intermittent_output self
              (intermittent_output self ++ [tmp]) in
        if has_start line
        then read_loop fuel self true false false [] rest
        else read_loop fuel self false bf true [] rest
      end
    else
      if has_start line
      then read_loop fuel self true false false tmp rest
      else read_loop fuel self false bf io tmp rest.
Proof.
  cbn [read_loop]. destruct kf; [|done].
  by destruct (gather line rest EmptyString) as [[??]?].
Qed.

(** What [absorb] leaves alone, and what it adds. *)
Lemma absorb_frame self kws df self' :
  absorb self kws df = Done self' →
  output_before_first_run self' = output_before_first_run self
  ∧ intermittent_output self' = intermittent_output self
  ∧ simulation_settings self' = simulation_settings self
  ∧ partial_simulation_settings self' = partial_simulation_settings self
  ∧ logfile self' = logfile self
  ∧ length (partial_logs self') = S (length (partial_logs self)).
Proof.
  unfold absorb.
  destruct (merge_columns _ _ _ _) as [[dd pd]| |]; cbn; [|done..].
  intros [= <-]; cbn. rewrite length_app; cbn.
  destruct (bool_decide _); cbn; repeat split; lia.
Qed.

Lemma merge_columns_fuel df names dd pd :
  merge_columns df names dd pd ≠ OutOfFuel.
Proof.
  revert dd pd. induction names as [|name names IH]; intros dd pd; [done|].
  cbn [merge_columns]. unfold getitem, df_getitem.
  destruct (dd !! name); [|done]. cbn.
  destruct (position _ _); [|done]. cbn. apply IH.
Qed.

Lemma absorb_fuel self kws df : absorb self kws df ≠ OutOfFuel.
Proof.
  unfold absorb.
  pose proof (merge_columns_fuel df kws
    (data_dict (if bool_decide (keywords self ≠ kws)
                then flush_dict_and_set_new_keyword self kws else self)) ∅).
  by destruct (merge_columns _ _ _ _) as [[??]| |].
Qed.

(** The loop never needs more fuel than there are lines. *)
Lemma read_loop_fuel f1 f2 self kf bf io tmp contents :
  length contents ≤ f1 → length contents ≤ f2 →
  read_loop f1 self kf bf io tmp contents
  = read_loop f2 self kf bf io tmp contents.
Proof.
  revert f2 self kf bf io tmp contents.
  induction f1 as [|f1 IH]; intros f2 self kf bf io tmp [|line rest] H1 H2;
    rewrite ?read_loop_nil; try done; cbn in H1, H2; try lia.
  destruct f2 as [|f2]; [lia|]. rewrite !read_loop_cons. cbv zeta.
  destruct kf.
  - pose proof (gather_rest_length line rest EmptyString) as Hlen.
    destruct (gather line rest EmptyString) as [[tmpString l'] rest'].
    cbn in Hlen. destruct (read_table tmpString); [|done].
    destruct (absorb _ _ _); cbn; [|done..].
    destruct (has_start l'); apply IH; lia.
  - destruct (has_start line); apply IH; lia.
Qed.

Lemma read_loop_enough_fuel fuel self kf bf io tmp contents :
  length contents ≤ fuel →
  read_loop fuel self kf bf io tmp contents ≠ OutOfFuel.
Proof.
  revert self kf bf io tmp contents.
  induction fuel as [|fuel IH]; intros self kf bf io tmp [|line rest] Hlen;
    rewrite ?read_loop_nil; try done; cbn in Hlen; try lia.
  rewrite read_loop_cons. cbv zeta. destruct kf.
  - pose proof (gather_rest_length line rest EmptyString) as Hrest.
    destruct (gather line rest EmptyString) as [[tmpString l'] rest'].
    cbn in Hrest. destruct (read_table tmpString); [|done].
    destruct (absorb _ _ _) eqn:Habs; cbn;
      [|done|by apply absorb_fuel in Habs].
    destruct (has_start l'); apply IH; lia.
  - destruct (has_start line); apply IH; lia.
Qed.

(** What the loop leaves alone; it adds as many narrative chunks as
    per-run dictionaries. *)
Lemma read_loop_frame fuel self kf bf io tmp contents self' :
  read_loop fuel self kf bf io tmp contents = Done self' →
  simulation_settings self' = simulation_settings self
  ∧ partial_simulation_settings self' = partial_simulation_settings self
  ∧ logfile self' = logfile self
  ∧ (bf = false →
     output_before_first_run self' = output_before_first_run self)
  ∧ length (intermittent_output self') + length (partial_logs self)
    = length (partial_logs self') + length (intermittent_output self).
Proof.
  revert self kf bf io tmp contents.
  induction fuel as [|fuel IH]; intros self kf bf io tmp [|line rest];
    rewrite ?read_loop_nil; try done;
    try (intros [= ->]; repeat split; lia).
  rewrite read_loop_cons. cbv zeta. destruct kf.
  - destruct (gather line rest EmptyString) as [[tmpString l'] rest'].
    destruct (read_table tmpString); [|done].
    destruct (absorb _ _ _) as [self1| |] eqn:Habs; cbn; [|done..].
    apply absorb_frame in Habs as (Ho & Hio & Hss & Hpss & Hlf & Hpl).
    destruct (has_start l'); intros (?&?&?&Hout&Hlen)%IH; cbn in *;
      rewrite length_app, Hio, Hpl in Hlen; cbn in Hlen;
      destruct bf; cbn in *; split_and!;
      first [congruence | lia | intros _; rewrite Hout by done; congruence].
  - destruct (has_start line); intros (?&?&?&Hout&Hlen)%IH;
      destruct bf; cbn in *; split_and!;
      first [congruence | lia | intros _; rewrite Hout by done; congruence].
Qed.

Lemma set_output_append_nil self :
  set_output_before_first_run self
    (output_before_first_run self +:+ EmptyString) = self.
Proof. destruct self. unfold set_output_before_first_run; cbn.
       by rewrite append_nil_r. Qed.

(** Lines that start no block, read outside a block: they go to the
    text before the first run while [bf] holds, and to the narrative
    chunk being collected while [io] holds. *)
Lemma read_loop_narrative ls fuel self bf io tmp rest :
  forallb (λ l, negb (has_start l)) ls = true →
  length (ls ++ rest) ≤ fuel →
  read_loop fuel self false bf io tmp (ls ++ rest)
  = read_loop (length rest)
      (if bf
       then set_output_before_first_run self
              (output_before_first_run self +:+ text ls)
       else self)
      false bf io (if io then tmp ++ ls else tmp) rest.
Proof.
  revert fuel self tmp.
  induction ls as [|l ls IH]; intros fuel self tmp Hls Hfuel.
  - cbn [app text foldr]. rewrite set_output_append_nil, app_nil_r.
    rewrite (read_loop_fuel fuel (length rest)) by done.
    by destruct bf, io.
  - cbn [forallb] in Hls. apply andb_true_iff in Hls as [Hl Hls].
    apply negb_true_iff in Hl. cbn in Hfuel.
    destruct fuel as [|fuel]; [lia|].
    cbn [app]. rewrite read_loop_cons. cbv zeta. rewrite Hl.
    rewrite IH by (done || lia). f_equal.
    + destruct bf; [|done]. unfold set_output_before_first_run; cbn.
      change (text (l :: ls)) with (l +:+ text ls).
      by rewrite append_assoc.
    + destruct io; [|done]. by rewrite <- app_assoc.
Qed.

(** The line that announces a block. *)
Lemma read_loop_start fuel self bf io tmp line rest :
  has_start line = true →
  read_loop (S fuel) self false bf io tmp (line :: rest)
  = read_loop fuel
      (if bf
       then set_output_before_first_run self
              (output_before_first_run self +:+ line)
       else self)
      true false false (if io then tmp ++ [line] else tmp) rest.
Proof. intros Hs. rewrite read_loop_cons. cbv zeta. by rewrite Hs. Qed.

(** *** read_file_to_dict and the constructor *)

Lemma read_file_to_dict_frame self self' :
  read_file_to_dict self = Done self' →
  logfile self' = []
  ∧ simulation_settings self' = simulation_settings self
  ∧ partial_simulation_settings self' = partial_simulation_settings self.
Proof.
  unfold read_file_to_dict.
  destruct (read_loop _ _ _ _ _ _ _) as [st| |] eqn:Hloop; cbn; [|done..].
  intros [= <-]. by apply read_loop_frame in Hloop as (?&?&?&_).
Qed.

(** Reading again a stream that has nothing left adds no text. *)
Lemma read_file_to_dict_drained self :
  logfile self = [] →
  ∃ self', read_file_to_dict self = Done self'
    ∧ output_before_first_run self' = output_before_first_run self.
Proof.
  intros Hlf. unfold read_file_to_dict. rewrite Hlf, read_loop_nil. cbn.
  by eexists.
Qed.

(** The passes of the constructor: when it returns, the reader has
    returned with some text before the first run, and the settings were
    extracted from its result without a second reading. *)
Lemma init_Done contents self :
  init contents = Done self ↔
  ∃ st, read_file_to_dict (new contents) = Done st
    ∧ output_before_first_run st ≠ EmptyString
    ∧ self = extract_settings st.
Proof.
  unfold init, parse_simulation_settings. split.
  - destruct (read_file_to_dict (new contents)) as [st| |] eqn:Hread;
      cbn; [|done..].
    destruct (decide (output_before_first_run st = EmptyString)) as [He|Hne].
    + apply read_file_to_dict_frame in Hread as [Hlf _].
      destruct (read_file_to_dict_drained st Hlf) as (st2 & -> & Hout).
      cbn. rewrite Hout, He. by rewrite decide_True.
    + intros [= <-]. by exists st.
  - intros (st & -> & Hne & ->). cbn. by rewrite decide_False.
Qed.

(** *** The settings *)

Lemma overlay_cons d line lines :
  overlay d (line :: lines) = overlay (update d (parse_line line)) lines.
Proof. done. Qed.

Lemma overlay_lookup_None d lines k :
  overlay d lines !! k = None → d !! k = None.
Proof.
  revert d. induction lines as [|l lines IH]; intros d; [done|].
  rewrite overlay_cons. intros H%IH. unfold update in H.
  by apply lookup_union_None in H as [_ ?].
Qed.

(** A key no line of the chunk sets keeps its value. *)
Lemma overlay_untouched d lines k :
  (∀ line, line ∈ lines → parse_line line !! k = None) →
  overlay d lines !! k = d !! k.
Proof.
  revert d. induction lines as [|l lines IH]; intros d Hk; [done|].
  rewrite overlay_cons, IH.
  - unfold update. rewrite lookup_union_r; [done|]. apply Hk. left.
  - intros line Hin. apply Hk. by right.
Qed.

(** Line 156: the accumulator takes the value of the new snapshot. *)
Lemma update_overlay d lines : update d (overlay d lines) = overlay d lines.
Proof.
  unfold update. apply map_eq. intros k. rewrite lookup_union.
  destruct (overlay d lines !! k) as [v|] eqn:Hk.
  - by destruct (d !! k).
  - by rewrite (overlay_lookup_None _ _ _ Hk).
Qed.

Lemma settings_steps_spec self chunks :
  let self' := foldl settings_step self chunks in
  partial_simulation_settings self'
    = partial_simulation_settings self
      ++ snapshots_from (simulation_settings self) chunks
  ∧ intermittent_output self' = intermittent_output self
  ∧ output_before_first_run self' = output_before_first_run self
  ∧ partial_logs self' = partial_logs self
  ∧ data_dict self' = data_dict self
  ∧ keywords self' = keywords self.
Proof.
  revert self. induction chunks as [|chunk chunks IH]; intros self; cbn.
  - by rewrite app_nil_r.
  - destruct (IH (settings_step self chunk)) as (-> & -> & -> & -> & -> & ->).
    cbn. rewrite update_overlay. by rewrite <- app_assoc.
Qed.

Lemma extract_settings_spec self :
  let s0 := overlay (simulation_settings self)
              (splitlines (output_before_first_run self)) in
  partial_simulation_settings (extract_settings self)
    = partial_simulation_settings self
      ++ s0 :: snapshots_from s0 (intermittent_output self)
  ∧ intermittent_output (extract_settings self) = intermittent_output self
  ∧ output_before_first_run (extract_settings self)
    = output_before_first_run self
  ∧ partial_logs (extract_settings self) = partial_logs self
  ∧ data_dict (extract_settings self) = data_dict self
  ∧ keywords (extract_settings self) = keywords self.
Proof.
  unfold extract_settings. cbv zeta.
  match goal with
  | |- context [foldl settings_step ?st ?chunks] =>
      destruct (settings_steps_spec st chunks)
        as (-> & -> & -> & -> & -> & ->)
  end.
  cbn. by rewrite <- app_assoc.
Qed.

Lemma length_snapshots_from (s : gmap string setting) chunks :
  length (snapshots_from s chunks) = length chunks.
Proof. revert s. induction chunks; intros s; cbn; auto. Qed.

(** The reader started on a fresh object, seen from its result. *)
Lemma read_file_to_dict_new contents st :
  read_file_to_dict (new contents) = Done st →
  simulation_settings st = ∅
  ∧ partial_simulation_settings st = []
  ∧ length (intermittent_output st) = pred (length (partial_logs st)).
Proof.
  unfold read_file_to_dict.
  destruct (read_loop _ _ _ _ _ _ _) as [st0| |] eqn:Hloop; cbn; [|done..].
  intros [= <-]. cbn.
  apply read_loop_frame in Hloop as (-> & -> & _ & _ & Hlen). cbn in Hlen.
  split_and!; [done..|].
  destruct (intermittent_output st0); cbn in *; lia.
Qed.

(** The text before the first run once a start line [m] is met: the
    lines up to and including [m]. *)
Lemma read_file_to_dict_output pre m rest st :
  forallb (λ l, negb (has_start l)) pre = true →
  has_start m = true →
  read_file_to_dict (new (pre ++ m :: rest)) = Done st →
  output_before_first_run st = text (pre ++ [m]).
Proof.
  intros Hpre Hm. unfold read_file_to_dict. cbn [logfile new].
  rewrite read_loop_narrative by done. cbn [length].
  rewrite read_loop_start by done.
  destruct (read_loop _ _ _ _ _ _ _) as [st0| |] eqn:Hloop; cbn; [|done..].
  intros [= <-]. cbn.
  apply read_loop_frame in Hloop as (_ & _ & _ & Hout & _).
  rewrite Hout by done. cbn. by rewrite text_snoc.
Qed.

(** Snapshots of the settings, one after the other. *)
Lemma snapshots_lookup_S (s : gmap string setting) chunks n sn sn1 :
  (s :: snapshots_from s chunks) !! n = Some sn →
  (s :: snapshots_from s chunks) !! S n = Some sn1 →
  ∃ chunk, chunks !! n = Some chunk ∧ sn1 = overlay sn chunk.
Proof.
  revert s n. induction chunks as [|c chunks IH]; intros s n; [done|].
  destruct n as [|n]; cbn.
  - intros [= <-] [= <-]. by exists c.
  - intros Hn HSn. by apply (IH (overlay s c) n).
Qed.

Lemma snapshots_cumulative (s : gmap string setting) chunks i j si sj key :
  i ≤ j →
  (s :: snapshots_from s chunks) !! i = Some si →
  (s :: snapshots_from s chunks) !! j = Some sj →
  (∀ k chunk line, i ≤ k < j → chunks !! k = Some chunk → line ∈ chunk →
     parse_line line !! key = None) →
  sj !! key = si !! key.
Proof.
  intros Hij Hi. revert sj. induction Hij as [|j Hij IH]; intros sj Hj Hkey.
  - congruence.
  - destruct (lookup_lt_is_Some_2 (s :: snapshots_from s chunks) j)
      as [sj' Hj'].
    { apply lookup_lt_Some in Hj. lia. }
    destruct (snapshots_lookup_S _ _ _ _ _ Hj' Hj) as (chunk & Hc & ->).
    rewrite overlay_untouched.
    + apply IH; [done|]. intros k c line Hk. apply Hkey. lia.
    + intros line Hline. apply (Hkey j chunk); [lia|done..].
Qed.

(** *** The accessors on an object without runs *)

Lemma get_no_data self name run :
  data_dict self = ∅ → partial_logs self = [] → (-1 ≤ run)%Z →
  get self name run = Done None.
Proof.
  intros Hdd Hpl Hrun. unfold get. rewrite Hdd, Hpl. cbn.
  destruct (decide _); [done|].
  destruct (Z.ltb_spec run (Z.of_nat 0)); [lia|done].
Qed.

(** On a constructed object there is text before the first run, and one
    snapshot more than there are narrative chunks. *)
Lemma init_snapshots contents self :
  init contents = Done self →
  length (partial_simulation_settings self)
    = 1 + length (intermittent_output self)
  ∧ output_before_first_run self ≠ EmptyString.
Proof.
  intros (st & Hread & Hne & ->)%init_Done.
  apply read_file_to_dict_new in Hread as (_ & Hpss & _).
  destruct (extract_settings_spec st) as (-> & -> & -> & _).
  rewrite Hpss. cbn. by rewrite length_snapshots_from.
Qed.

(** *** parse_line *)

Lemma parse_kws_no_match line (m : gmap string setting) kws :
  (∀ kw, kw ∈ kws → startswith (strip line) kw = false) →
  foldl parse_kw (line, m) kws = (line, m).
Proof.
  induction kws as [|kw kws IH]; intros Hkws; [done|].
  cbn [foldl parse_kw]. rewrite (Hkws kw) by left.
  apply IH. intros kw' Hin. apply Hkws. by right.
Qed.

Lemma parse_kws_nonempty (acc : string * gmap string setting) kws :
  acc.2 ≠ ∅ → (foldl parse_kw acc kws).2 ≠ ∅.
Proof.
  revert acc. induction kws as [|kw kws IH]; intros [line m] Hm; [done|].
  cbn [foldl]. apply IH. unfold parse_kw.
  destruct (startswith (strip line) kw); [|done].
  cbn. apply insert_non_empty.
Qed.

Lemma parse_kws_contributes line kws :
  (foldl parse_kw (line, ∅) kws).2 ≠ ∅ ↔
  ∃ kw, kw ∈ kws ∧ startswith (strip line) kw = true.
Proof.
  induction kws as [|kw kws IH].
  - split; [done|]. by intros (kw & Hin%elem_of_nil & _).
  - destruct (startswith (strip line) kw) eqn:Hkw.
    + split; [intros _; exists kw; split; [left|done]|intros _].
      cbn [foldl]. apply parse_kws_nonempty.
      unfold parse_kw. rewrite Hkw. cbn. apply insert_non_empty.
    + cbn [foldl].
      replace (parse_kw (line, ∅) kw) with (line, ∅ : gmap string setting)
        by (unfold parse_kw; by rewrite Hkw).
      rewrite IH.
      split; intros (kw' & Hin & Hs).
      * exists kw'. split; [by right|done].
      * apply elem_of_cons in Hin as [->|Hin]; [congruence|by exists kw'].
Qed.

End Reader.

(** ** The blocks of a log *)

Section Blocks.
Context `{E : Externals}.
Implicit Types (self st : File) (b : block) (blocks : list block).
Implicit Types (dd pd : gmap string (list cell)).

Lemma df_getitem_column df name :
  is_Some (position name (df_columns df)) →
  df_getitem df name = Done (df_column df name)
  ∧ length (df_column df name) = df_nrows df.
Proof.
  intros [j Hj]. unfold df_column, df_getitem, df_nrows. rewrite Hj.
  by rewrite length_fmap.
Qed.

(** The [for name in keywords] loop, when the aggregate has an entry for
    every name and the frame has a column for every name. *)
Lemma merge_columns_spec df names dd pd :
  (∀ n, n ∈ names → is_Some (dd !! n)) →
  (∀ n, n ∈ names → is_Some (position n (df_columns df))) →
  ∃ dd' pd', merge_columns df names dd pd = Done (dd', pd')
    ∧ (∀ n, pd' !! n
            = if decide (n ∈ names) then Some (df_column df n) else pd !! n)
    ∧ (∀ n, is_Some (dd !! n) → is_Some (dd' !! n))
    ∧ (∀ n, n ∉ names → dd' !! n = dd !! n)
    ∧ (NoDup names → ∀ n, n ∈ names →
         dd' !! n = (λ old, old ++ df_column df n) <$> dd !! n).
Proof.
  revert dd pd. induction names as [|name names IH]; intros dd pd Hdd Hdf.
  - exists dd, pd. split_and!; try done.
    intros _ n Hn. by apply elem_of_nil in Hn.
  - cbn [merge_columns].
    destruct (Hdd name) as [old Hold]; [left|].
    unfold getitem. rewrite Hold. cbn [bind].
    destruct (df_getitem_column df name) as [-> _]; [apply Hdf; left|].
    cbn [bind app].
    destruct (IH (<[name:=old ++ df_column df name]> dd)
                 (<[name:=df_column df name]> pd))
      as (dd' & pd' & -> & Hpd & Hkeys & Hout & Hin).
    { intros n Hn. rewrite lookup_insert_is_Some.
      destruct (decide (name = n)); [by left|right].
      split; [done|]. apply Hdd. by right. }
    { intros n Hn. apply Hdf. by right. }
    exists dd', pd'. split_and!; [done|..].
    + intros n. rewrite Hpd.
      destruct (decide (n ∈ names)) as [Hn|Hn].
      * rewrite decide_True; [done|by right].
      * destruct (decide (n = name)) as [->|Hne].
        -- rewrite lookup_insert_eq. rewrite decide_True; [done|left].
        -- rewrite lookup_insert_ne by done.
           rewrite decide_False; [done|].
           by intros [?|?]%elem_of_cons.
    + intros n Hn. apply Hkeys. rewrite lookup_insert_is_Some.
      destruct (decide (name = n)); [by left|by right].
    + intros n Hn. rewrite Hout.
      * rewrite lookup_insert_ne; [done|]. intros ->. apply Hn. left.
      * intros ?. apply Hn. by right.
    + intros [Hname Hnd]%NoDup_cons n Hn.
      destruct (decide (n = name)) as [->|Hne].
      * rewrite Hout by done. by rewrite lookup_insert_eq, Hold.
      * apply elem_of_cons in Hn as [?|Hn]; [done|].
        rewrite Hin by done. by rewrite lookup_insert_ne.
Qed.

(** The dictionary [flush_dict_and_set_new_keyword] builds. *)
Lemma flushed_lookup kws dd n :
  foldl (λ d entry, <[entry:=[]]> d) dd kws !! n
  = if decide (n ∈ kws) then Some [] else dd !! n.
Proof.
  revert dd. induction kws as [|kw kws IH]; intros dd; [done|].
  cbn [foldl]. rewrite IH.
  destruct (decide (n ∈ kws)) as [Hn|Hn].
  - rewrite decide_True; [done|by right].
  - destruct (decide (n = kw)) as [->|Hne].
    + rewrite lookup_insert_eq. rewrite decide_True; [done|left].
    + rewrite lookup_insert_ne by done. rewrite decide_False; [done|].
      by intros [?|?]%elem_of_cons.
Qed.

Lemma absorb_spec self kws df :
  (∀ n, n ∈ keywords self → is_Some (data_dict self !! n)) →
  (∀ n, n ∈ kws → is_Some (position n (df_columns df))) →
  ∃ self' pd, absorb self kws df = Done self'
    ∧ keywords self' = kws
    ∧ partial_logs self' = partial_logs self ++ [pd]
    ∧ run_dict kws df pd
    ∧ (∀ n, n ∈ kws → is_Some (data_dict self' !! n))
    ∧ (NoDup kws → ∀ n,
         data_dict self' !! n
         = if decide (n ∈ kws)
           then (λ old, old ++ df_column df n) <$> merge_base self kws n
           else merge_base self kws n).
Proof.
  intros Hinv Hdf. unfold absorb.
  set (self1 := if bool_decide (keywords self ≠ kws)
                then flush_dict_and_set_new_keyword self kws else self).
  assert (keywords self1 = kws
          ∧ partial_logs self1 = partial_logs self
          ∧ ∀ n, data_dict self1 !! n = merge_base self kws n)
    as (Hk1 & Hp1 & Hd1).
  { unfold self1, merge_base.
    destruct (decide (keywords self = kws)) as [Heq|Hne].
    - rewrite bool_decide_eq_false_2 by (by intros ?). done.
    - rewrite bool_decide_eq_true_2 by done. split_and!; [done..|].
      intros n. cbn. by rewrite flushed_lookup, lookup_empty. }
  destruct (merge_columns_spec df kws (data_dict self1) ∅)
    as (dd' & pd' & -> & Hpd & Hkeys & Hout & Hin); [|done|].
  { intros n Hn. rewrite Hd1. unfold merge_base.
    destruct (decide (keywords self = kws)) as [<-|]; [by apply Hinv|].
    by rewrite decide_True. }
  cbn. eexists _, pd'. split_and!; [done|done|cbn; by rewrite Hp1| | |].
  - intros n. rewrite Hpd. by rewrite lookup_empty.
  - cbn. intros n Hn. apply Hkeys. rewrite Hd1. unfold merge_base.
    destruct (decide (keywords self = kws)) as [<-|]; [by apply Hinv|].
    by rewrite decide_True.
  - cbn. intros Hnd n. destruct (decide (n ∈ kws)) as [Hn|Hn].
    + by rewrite Hin, Hd1.
    + by rewrite Hout, Hd1.
Qed.

(** One block, from the line that announces it to the end of the
    narrative that follows it: the reader hands the text of the block to
    the parser, absorbs the frame under the column set of the header, and
    closes the narrative chunk that led to the block. *)
Lemma read_loop_block is_last b more fuel self bf io tmp df :
  block_ok is_last b = true →
  (b_stop b = None → more = []) →
  read_table (block_text b) = Some df →
  length (block_lines b ++ more) ≤ fuel →
  read_loop fuel self false bf io tmp (block_lines b ++ more)
  = do self1 <- absorb
                  (if bf
                   then set_output_before_first_run self
                          (output_before_first_run self +:+ b_start b)
                   else self)
                  (block_keywords b) df;
    read_loop (length more)
      (set_intermittent_output self1
         (intermittent_output self1
            ++ [if io then tmp ++ [b_start b] else tmp]))
      false false true (b_gap b) more.
Proof.
  unfold block_ok, block_lines, block_text, block_keywords.
  intros Hok Hmore Hdf Hfuel.
  apply andb_true_iff in Hok as [Hok Hgap].
  apply andb_true_iff in Hok as [Hok Hstop].
  apply andb_true_iff in Hok as [Hstart Hrows].
  cbn in Hfuel. destruct fuel as [|[|fuel]]; [lia..|].
  cbn [app]. rewrite read_loop_start by done.
  rewrite read_loop_cons. cbv zeta.
  destruct (b_stop b) as [t|].
  - apply andb_true_iff in Hstop as [Ht Hts]. apply negb_true_iff in Hts.
    replace ((b_rows b ++ option_list (Some t) ++ b_gap b) ++ more)
      with (b_rows b ++ t :: (b_gap b ++ more))
      by (cbn; by rewrite <- !app_assoc).
    rewrite gather_closed by done.
    rewrite append_nil_l, Hdf.
    destruct (absorb _ _ _) as [self1| |]; cbn [bind]; [|done..].
    rewrite Hts. rewrite read_loop_narrative; [done..|].
    cbn in Hfuel. rewrite !length_app in *. cbn in Hfuel. lia.
  - apply andb_true_iff in Hstop as [_ Hg].
    destruct (b_gap b); [|done]. rewrite (Hmore eq_refl).
    replace ((b_rows b ++ option_list None ++ []) ++ [])
      with (b_rows b) by (cbn; by rewrite !app_nil_r).
    destruct (gather_open (b_header b) (b_rows b) EmptyString Hrows)
      as [line ->].
    rewrite append_nil_l, Hdf.
    destruct (absorb _ _ _) as [self1| |]; cbn [bind]; [|done..].
    rewrite !read_loop_nil. by destruct (has_start line).
Qed.

Lemma blocks_ok_cons b blocks :
  blocks_ok (b :: blocks) = true →
  block_ok (match blocks with [] => true | _ => false end) b = true
  ∧ (b_stop b = None → concat (block_lines <$> blocks) = [])
  ∧ blocks_ok blocks = true.
Proof.
  cbn [blocks_ok]. intros [Hb Hbs]%andb_true_iff. split_and!; [done| |done].
  intros Hstop. destruct blocks; [done|].
  unfold block_ok in Hb. rewrite Hstop in Hb.
  by rewrite andb_false_r in Hb.
Qed.

(** An invariant of the blocks read so far: it holds of the final object
    when every block is parsed and absorbed under it, and when it does
    not look at the narrative the reader collects. *)
Lemma read_loop_blocks (I : list block → File → Prop) all :
  (∀ seen self v, I seen self →
     I seen (set_output_before_first_run self v)) →
  (∀ seen self v, I seen self → I seen (set_intermittent_output self v)) →
  (∀ seen b rest self, all = seen ++ b :: rest → I seen self →
     ∃ df self', read_table (block_text b) = Some df
       ∧ absorb self (block_keywords b) df = Done self'
       ∧ I (seen ++ [b]) self') →
  ∀ blocks seen self fuel bf io tmp,
    all = seen ++ blocks →
    blocks_ok blocks = true →
    I seen self →
    length (concat (block_lines <$> blocks)) ≤ fuel →
    ∃ self',
      read_loop fuel self false bf io tmp (concat (block_lines <$> blocks))
        = Done self'
      ∧ I all self'.
Proof.
  intros Hout Hio Hstep.
  induction blocks as [|b blocks IH];
    intros seen self fuel bf io tmp Hall Hok HI Hfuel.
  - cbn. rewrite read_loop_nil. eexists; split; [done|].
    by rewrite Hall, app_nil_r.
  - apply blocks_ok_cons in Hok as (Hb & Hlast & Hok).
    destruct (Hstep seen b blocks
                (if bf
                 then set_output_before_first_run self
                        (output_before_first_run self +:+ b_start b)
                 else self) Hall)
      as (df & self1 & Hdf & Habs & HI1).
    { destruct bf; [by apply Hout|done]. }
    cbn [fmap list_fmap concat] in *.
    erewrite read_loop_block by done. rewrite Habs. cbn [bind].
    apply (IH (seen ++ [b])); [|done| |done].
    + by rewrite <- app_assoc.
    + by apply Hio.
Qed.

Lemma block_parses_spec b :
  block_parses b = true →
  ∃ df, read_table (block_text b) = Some df
    ∧ (∀ n, n ∈ block_keywords b →
         is_Some (position n (df_columns df)))
    ∧ (∀ n, block_column b n = df_column df n)
    ∧ block_nrows b = df_nrows df.
Proof.
  unfold block_parses, block_column, block_nrows.
  destruct (read_table (block_text b)) as [df|]; [|done].
  intros Hall. exists df. split_and!; [done| |done..].
  intros n Hn. rewrite forallb_forall in Hall.
  apply list_elem_of_In in Hn. apply Hall in Hn.
  by apply bool_decide_eq_true in Hn.
Qed.

Lemma last_keywords_snoc seen b :
  last_keywords (seen ++ [b]) = block_keywords b.
Proof. unfold last_keywords. by rewrite last_snoc. Qed.

Lemma epoch_column_snoc e b n :
  epoch_column (e ++ [b]) n = epoch_column e n ++ block_column b n.
Proof.
  unfold epoch_column. rewrite fmap_app, concat_app. cbn.
  by rewrite app_nil_r.
Qed.

(** Absorbing the next block keeps [seen_inv]. *)
Lemma seen_inv_step before epoch K seen b rest self :
  forallb block_parses (before ++ epoch) = true →
  Forall (λ b, block_keywords b = K) epoch →
  NoDup K →
  last_keywords before ≠ K ∨ before = [] →
  before ++ epoch = seen ++ b :: rest →
  seen_inv before K seen self →
  ∃ df self', read_table (block_text b) = Some df
    ∧ absorb self (block_keywords b) df = Done self'
    ∧ seen_inv before K (seen ++ [b]) self'.
Proof.
  intros Hparse HK Hnd Hbefore Hall (Hpl & Hkeys & Hkw & Hnil & Hagg).
  assert (block_parses b = true) as Hb.
  { rewrite forallb_forall in Hparse. apply Hparse.
    rewrite Hall. apply in_elt. }
  apply block_parses_spec in Hb as (df & Hdf & Hcols & Hcol & _).
  destruct (absorb_spec self (block_keywords b) df Hkeys Hcols)
    as (self' & pd & Habs & Hkw' & Hpl' & Hpd & Hkeys' & Hdd').
  exists df, self'. split_and!; [done..|].
  unfold seen_inv. split_and!.
  - rewrite Hpl'. apply Forall2_app; [done|].
    constructor; [|constructor]. intros n. rewrite Hpd.
    by rewrite Hcol.
  - by rewrite Hkw'.
  - by rewrite Hkw', last_keywords_snoc.
  - intros [_ [=]]%app_eq_nil.
  - intros e He Hseen n.
    destruct (exists_last He) as (e' & b' & ->).
    rewrite app_assoc in Hseen.
    apply app_inj_tail in Hseen as [-> <-].
    assert (epoch = e' ++ b :: rest) as ->.
    { rewrite <- app_assoc in Hall. by apply app_inv_head in Hall. }
    assert (block_keywords b = K) as HbK.
    { rewrite Forall_forall in HK. apply HK.
      apply list_elem_of_In, in_elt. }
    rewrite HbK in *. rewrite Hdd' by done.
    rewrite epoch_column_snoc, <- Hcol.
    assert (merge_base self K n
            = if decide (n ∈ K) then Some (epoch_column e' n) else None)
      as ->; [|by destruct (decide (n ∈ K))].
    unfold merge_base.
    destruct (decide (e' = [])) as [-> | He'].
    + rewrite app_nil_r in *.
      destruct (decide (keywords self = K)) as [HsK|HsK]; [|done].
      destruct Hbefore as [Hb | ->]; [by rewrite <- Hkw in Hb|].
      rewrite (Hnil eq_refl), lookup_empty.
      destruct (decide (n ∈ K)) as [Hn|Hn]; [|done].
      rewrite <- HsK in Hn. apply Hkeys in Hn.
      rewrite (Hnil eq_refl), lookup_empty in Hn. by destruct Hn.
    + destruct (decide (keywords self = K)) as [HsK|HsK];
        [by apply Hagg|].
      destruct HsK. rewrite Hkw.
      destruct (exists_last He') as (e'' & b'' & ->).
      rewrite app_assoc, last_keywords_snoc.
      rewrite Forall_forall in HK. apply HK.
      rewrite <- app_assoc. apply list_elem_of_In, in_elt.
Qed.

(** Reading a log of well-formed blocks that the parser accepts: the
    constructor returns, every block has its per-run dictionary, and the
    aggregate holds the columns of the last blocks, those that follow
    the last change of the column set. *)
Lemma read_log pre before epoch K :
  log_ok pre (before ++ epoch) = true →
  forallb block_parses (before ++ epoch) = true →
  epoch ≠ [] →
  Forall (λ b, block_keywords b = K) epoch →
  NoDup K →
  last_keywords before ≠ K ∨ before = [] →
  ∃ self, init (log_lines pre (before ++ epoch)) = Done self
    ∧ seen_inv before K (before ++ epoch) self.
Proof.
  intros Hok Hparse He HK Hnd Hbefore.
  apply andb_true_iff in Hok as [Hpre Hok].
  destruct (read_loop_blocks (seen_inv before K) (before ++ epoch))
    with (blocks := before ++ epoch) (seen := @nil block)
         (self := set_output_before_first_run (set_logfile
                    (new (log_lines pre (before ++ epoch))) [])
                    (EmptyString +:+ text pre))
         (fuel := length (concat (block_lines <$> before ++ epoch)))
         (bf := true) (io := false) (tmp := @nil string)
    as (st0 & Hloop & Hinv); try done.
  { intros seen b rest self Hall Hseen.
    by apply seen_inv_step with epoch rest. }
  { unfold seen_inv. cbn. split_and!; try done.
    - intros n Hn. by apply elem_of_nil in Hn.
    - intros e Hne Hnil. symmetry in Hnil.
      by apply app_eq_nil in Hnil as [_ ->]. }
  set (st := set_intermittent_output st0 (tail (intermittent_output st0))).
  assert (read_file_to_dict (new (log_lines pre (before ++ epoch)))
          = Done st) as Hread.
  { unfold read_file_to_dict, log_lines. cbn [logfile new].
    rewrite read_loop_narrative by done. cbn -[log_lines].
    unfold log_lines in Hloop. cbn in Hloop. by rewrite Hloop. }
  exists (extract_settings st).
  destruct (extract_settings_spec st) as (_ & _ & _ & Hpl & Hdd & Hkw).
  split.
  - apply init_Done. exists st. split_and!; [done| |done].
    destruct (before ++ epoch) as [|b1 blocks] eqn:Hblocks.
    { by apply app_eq_nil in Hblocks as [_ ?]. }
    apply blocks_ok_cons in Hok as (Hb1 & _).
    unfold block_ok in Hb1. repeat apply andb_true_iff in Hb1 as [Hb1 _].
    unfold log_lines, block_lines in Hread.
    cbn [fmap list_fmap concat app] in Hread.
    rewrite (read_file_to_dict_output _ _ _ _ Hpre Hb1 Hread).
    rewrite text_snoc. apply append_nonempty_r.
    by apply has_start_nonempty.
  - destruct Hinv as (H1 & H2 & H3 & H4 & H5).
    unfold seen_inv. rewrite Hpl, Hdd, Hkw. by split_and!.
Qed.

End Blocks.

(** ** The claims on the runs and the aggregate *)

Section RunClaims.
Context `{E : Externals}.
Implicit Types (self st : File) (b : block) (blocks : list block).

Lemma get_aggregate self name :
  get self name (-1) = Done (data_dict self !! name).
Proof. unfold get. cbn. by destruct (data_dict self !! name). Qed.

Lemma get_run self name k pd :
  partial_logs self !! k = Some pd →
  get self name (Z.of_nat k) = Done (pd !! name).
Proof.
  intros Hk. pose proof (lookup_lt_Some _ _ _ Hk) as Hlt.
  assert ((Z.of_nat k <? Z.of_nat (length (partial_logs self)))%Z = true)
    as Hltb by (apply Z.ltb_lt; lia).
  unfold get, index. rewrite decide_False by lia. rewrite Hltb.
  destruct (Z.ltb_spec (Z.of_nat k) 0); [lia|]. cbv zeta. rewrite Hltb.
  destruct (Z.leb_spec 0 (Z.of_nat k)); [|lia]. cbn [andb].
  rewrite Nat2Z.id, Hk. cbn. by destruct (pd !! name).
Qed.

Lemma length_epoch_column blocks K name :
  forallb block_parses blocks = true →
  Forall (λ b, block_keywords b = K) blocks →
  name ∈ K →
  length (epoch_column blocks name) = sum_list (block_nrows <$> blocks).
Proof.
  intros Hparse HK Hname. unfold epoch_column.
  induction blocks as [|b blocks IH]; [done|].
  cbn [forallb] in Hparse. apply andb_true_iff in Hparse as [Hb Hparse].
  apply Forall_cons in HK as [HbK HK].
  cbn. rewrite length_app, IH by done. f_equal.
  apply block_parses_spec in Hb as (df & _ & Hcols & -> & ->).
  apply df_getitem_column, Hcols. by rewrite HbK.
Qed.

(** C1.  A log of [R >= 1] well-formed blocks that the parser accepts
    and that share one column set [K] (distinct names): the constructor
    returns, [get_num_partial_logs] is [R], and for every name of [K]
    the aggregate [get(name, -1)] has as many entries as the blocks have
    rows together. *)
Theorem same_column_set_aggregate pre blocks K :
  log_ok pre blocks = true →
  forallb block_parses blocks = true →
  blocks ≠ [] →
  Forall (λ b, block_keywords b = K) blocks →
  NoDup K →
  ∃ self, init (log_lines pre blocks) = Done self
    ∧ get_num_partial_logs self = length blocks
    ∧ ∀ name, name ∈ K →
        ∃ agg, get self name (-1) = Done (Some agg)
          ∧ length agg = sum_list (block_nrows <$> blocks).
Proof.
  intros Hok Hparse Hne HK Hnd.
  destruct (read_log pre [] blocks K) as (self & Hinit & Hinv);
    [done..|by right|].
  destruct Hinv as (Hpl & _ & _ & _ & Hagg). cbn [app] in *.
  exists self. split_and!; [done| |].
  - unfold get_num_partial_logs. symmetry. by eapply Forall2_length.
  - intros name Hname. exists (epoch_column blocks name).
    rewrite get_aggregate, (Hagg blocks Hne eq_refl).
    rewrite decide_True by done. split; [done|].
    by apply length_epoch_column with K.
Qed.

(** C2.  A log whose column set changes: [prev] is the last block whose
    column set differs from [K], the column set (distinct names) of the
    blocks [epoch] that follow it to the end.  The constructor returns;
    the aggregate [get(name, -1)] holds, for the names of [K], the rows
    of the blocks of [epoch] in order, and no other name; the per-run
    [get(name, k)] holds the column of block [k] itself, for every
    block. *)
Theorem column_set_change pre earlier prev epoch K :
  log_ok pre (earlier ++ prev :: epoch) = true →
  forallb block_parses (earlier ++ prev :: epoch) = true →
  epoch ≠ [] →
  Forall (λ b, block_keywords b = K) epoch →
  block_keywords prev ≠ K →
  NoDup K →
  ∃ self, init (log_lines pre (earlier ++ prev :: epoch)) = Done self
    ∧ (∀ name, get self name (-1)
         = Done (if decide (name ∈ K)
                 then Some (epoch_column epoch name) else None))
    ∧ (∀ k b name, (earlier ++ prev :: epoch) !! k = Some b →
         get self name (Z.of_nat k)
         = Done (if decide (name ∈ block_keywords b)
                 then Some (block_column b name) else None)).
Proof.
  intros Hok Hparse Hne HK Hprev Hnd.
  rewrite (cons_middle prev), app_assoc in *.
  destruct (read_log pre (earlier ++ [prev]) epoch K)
    as (self & Hinit & Hinv); [done..| |].
  { left. by rewrite last_keywords_snoc. }
  destruct Hinv as (Hpl & _ & _ & _ & Hagg).
  exists self. split_and!; [done| |].
  - intros name. by rewrite get_aggregate, (Hagg epoch Hne eq_refl).
  - intros k b name Hk.
    destruct (Forall2_lookup_l _ _ _ _ _ Hpl Hk) as (pd & Hpd & Hrun).
    by rewrite (get_run _ _ _ _ Hpd), Hrun.
Qed.

End RunClaims.

(** ** The claims on the settings and the accessors *)

Section Claims.
Context `{E : Externals}.
Implicit Types (self st : File) (line : string) (contents : list string).

(** C3, as amended.  For every non-empty input in which no line starts
    with a start string the constructor returns: [get_num_partial_logs]
    is 0, [get] returns [None] for every column name and every run index
    from -1 upwards, and [parse_simulation_settings] raises nothing: the
    whole input is the text before the first run and there is exactly one
    settings snapshot. *)
Theorem no_start_marker_log contents :
  text contents ≠ EmptyString →
  forallb (λ l, negb (has_start l)) contents = true →
  ∃ self, init contents = Done self
    ∧ get_num_partial_logs self = 0
    ∧ (∀ name run, (-1 ≤ run)%Z → get self name run = Done None)
    ∧ output_before_first_run self = text contents
    ∧ length (partial_simulation_settings self) = 1.
Proof.
  intros Hne Hns.
  assert (∃ st, read_file_to_dict (new contents) = Done st
            ∧ output_before_first_run st = text contents
            ∧ data_dict st = ∅ ∧ partial_logs st = []
            ∧ intermittent_output st = []
            ∧ partial_simulation_settings st = [])
    as (st & Hst & Hout & Hdd & Hpl & Hio & Hpss).
  { unfold read_file_to_dict. cbn [logfile new].
    pose proof (read_loop_narrative contents (length contents)
                  (set_logfile (new contents) []) true false [] [] Hns)
      as Hloop.
    rewrite app_nil_r in Hloop. rewrite Hloop by done.
    rewrite read_loop_nil. cbn. by eexists. }
  exists (extract_settings st).
  destruct (extract_settings_spec st) as (Hp & _ & Ho & Hl & Hd & _).
  split; [apply init_Done; exists st; split_and!; congruence|].
  unfold get_num_partial_logs. rewrite Hl, Hpl.
  split_and!; [done| |congruence|].
  - intros name run Hrun. apply get_no_data; congruence.
  - rewrite Hp, Hpss, Hio. done.
Qed.

(** C4, as amended.  When the constructor returns, the number of
    settings snapshots is 1 plus the number of narrative chunks; it is
    the number of completed blocks whenever there is at least one block,
    and it is 1 when [get_num_partial_logs] is 0. *)
Theorem snapshot_count contents self :
  init contents = Done self →
  length (partial_simulation_settings self)
    = 1 + length (intermittent_output self)
  ∧ (get_num_partial_logs self ≠ 0 →
     length (partial_simulation_settings self) = get_num_partial_logs self)
  ∧ (get_num_partial_logs self = 0 →
     length (partial_simulation_settings self) = 1).
Proof.
  intros (st & Hread & _ & ->)%init_Done.
  apply read_file_to_dict_new in Hread as (_ & Hpss & Hlen).
  destruct (extract_settings_spec st) as (-> & -> & _ & Hpl & _).
  unfold get_num_partial_logs. rewrite Hpl, Hpss. cbn.
  rewrite length_snapshots_from. lia.
Qed.

(** C5.  The settings snapshots are cumulative: when the constructor
    returns and [i < j], a key that snapshot [i] maps to [v] and that no
    line of the narrative chunks [i+1 .. j] sets is mapped to [v] by
    snapshot [j].  Chunk [n] is the one that yields snapshot [n]; it is
    [intermittent_output[n-1]]. *)
Theorem settings_cumulative contents self i j si sj key v :
  init contents = Done self →
  i < j →
  partial_simulation_settings self !! i = Some si →
  partial_simulation_settings self !! j = Some sj →
  si !! key = Some v →
  (∀ n chunk line, i < n ≤ j →
     intermittent_output self !! (n - 1) = Some chunk → line ∈ chunk →
     parse_line line !! key = None) →
  sj !! key = Some v.
Proof.
  intros (st & Hread & _ & ->)%init_Done Hij.
  apply read_file_to_dict_new in Hread as (_ & Hpss & _).
  destruct (extract_settings_spec st) as (-> & -> & _).
  rewrite Hpss. cbn [app]. intros Hi Hj Hv Hkey.
  rewrite <- Hv. eapply snapshots_cumulative; [|done..|]; [lia|].
  intros k chunk line Hk Hc Hline. apply (Hkey (S k) chunk); [lia| |done].
  by replace (S k - 1) with k by lia.
Qed.

(** C6: the code departs from the claim.  A run index below the range of
    the runs, other than -1, passes the test [len(self.partial_logs) >
    run_num] and the list lookup raises [IndexError], in [get] and in
    [get_keywords]. *)
Theorem get_below_range_raises self name run :
  (run < - Z.of_nat (length (partial_logs self)))%Z →
  run ≠ (-1)%Z →
  get self name run = Raised IndexError
  ∧ get_keywords self run = Raised IndexError.
Proof.
  intros Hlow Hne. unfold get, get_keywords, index.
  rewrite !decide_False by done.
  destruct (Z.ltb_spec run (Z.of_nat (length (partial_logs self))));
    [|lia].
  destruct (Z.ltb_spec run 0); [|lia].
  cbv zeta.
  destruct (Z.leb_spec 0 (run + Z.of_nat (length (partial_logs self))));
    [lia|done].
Qed.

(** C7, as amended.  A line contributes a setting exactly when, with the
    white space trimmed at both ends, it begins with one of the
    recognized names; nothing is asked of the character after the
    name. *)
Theorem parse_line_contributes line :
  parse_line line ≠ ∅ ↔
  ∃ kw, kw ∈ sim_settings_kws ∧ startswith (strip line) kw = true.
Proof. apply parse_kws_contributes. Qed.

(** C8, as amended.  When the input holds a line that starts with a
    start string, the text before the first run consists of the lines up
    to and including the first such line. *)
Theorem output_before_first_run_lines pre m rest self :
  forallb (λ l, negb (has_start l)) pre = true →
  has_start m = true →
  init (pre ++ m :: rest) = Done self →
  output_before_first_run self = text (pre ++ [m]).
Proof.
  intros Hpre Hm (st & Hread & _ & ->)%init_Done.
  destruct (extract_settings_spec st) as (_ & _ & -> & _).
  by apply read_file_to_dict_output with rest.
Qed.

(** C9, as amended.  A second call of [parse_simulation_settings] on a
    constructed object returns, keeps the snapshots of the first call in
    place and appends as many new ones after them. *)
Theorem second_extraction_appends contents self :
  init contents = Done self →
  ∃ self2 extra,
    parse_simulation_settings self = Done self2
    ∧ partial_simulation_settings self2
      = partial_simulation_settings self ++ extra
    ∧ length extra = length (partial_simulation_settings self).
Proof.
  intros Hinit. destruct (init_snapshots contents self Hinit) as [Hlen Hout].
  unfold parse_simulation_settings. rewrite decide_False by done.
  destruct (extract_settings_spec self) as (Hp & _).
  eexists _, _. split_and!; [done..|].
  cbn. rewrite length_snapshots_from. lia.
Qed.

(** C10.  With [R >= 1] runs, a run index between [-R] and -2 selects the
    run counted from the end: the dictionary [pd] stored at position
    [R + run_num] of [partial_logs] is the one [get] looks the name up in
    (its column, or [None] when it has none) and the one whose sorted keys
    [get_keywords] returns; in particular both answer as for the index
    [R + run_num]. *)
Theorem negative_run_index self name run :
  let R := Z.of_nat (get_num_partial_logs self) in
  (1 ≤ R)%Z → (- R ≤ run ≤ -2)%Z →
  ∃ pd,
    partial_logs self !! Z.to_nat (R + run) = Some pd
    ∧ get self name run = Done (pd !! name)
    ∧ get_keywords self run = Done (Some (sorted (dict_keys pd)))
    ∧ get self name run = get self name (R + run)
    ∧ get_keywords self run = get_keywords self (R + run).
Proof.
  cbv zeta. unfold get_num_partial_logs. intros HR Hrun.
  destruct (lookup_lt_is_Some_2 (partial_logs self)
              (Z.to_nat (Z.of_nat (length (partial_logs self)) + run)))
    as [pd Hpd]; [lia|].
  exists pd. split; [done|].
  unfold get, get_keywords, index. cbv zeta.
  rewrite !decide_False by lia. rewrite (Z.add_comm run).
  repeat match goal with
  | |- context [(?a <? ?b)%Z] => destruct (Z.ltb_spec a b); try lia
  | |- context [(?a <=? ?b)%Z] => destruct (Z.leb_spec a b); try lia
  end.
  cbn [andb]. rewrite Hpd. cbn.
  by destruct (pd !! name); split_and!.
Qed.

End Claims.

(** ** The claims on the example logs *)

Module Examples.
#[local] Existing Instance Demo.externals.
Import Demo.

Ltac distinct_names :=
  apply NoDup_ListNoDup; repeat constructor; cbn; intuition discriminate.

Lemma init_two_runs : init two_runs = Done (constructed two_runs).
Proof. vm_compute. reflexivity. Qed.

Lemma init_three_runs : init three_runs = Done (constructed three_runs).
Proof. vm_compute. reflexivity. Qed.

Lemma init_no_run : init no_run = Done (constructed no_run).
Proof. vm_compute. reflexivity. Qed.

Lemma same_column_set_aggregate_witness :
  ∃ self, init two_runs = Done self
    ∧ get_num_partial_logs self = 2
    ∧ ∀ name, name ∈ ["Step"; "Temp"] →
        ∃ agg, get self name (-1) = Done (Some agg) ∧ length agg = 3.
Proof.
  refine (same_column_set_aggregate (E:=externals) header [run1; run2]
            ["Step"; "Temp"]
            _ _ _ _ _).
  - vm_compute. reflexivity.
  - vm_compute. reflexivity.
  - discriminate.
  - repeat constructor.
  - distinct_names.
Defined.

Lemma column_set_change_witness :
  ∃ self, init three_runs = Done self
    ∧ (∀ name, get self name (-1)
         = Done (if decide (name ∈ ["Step"; "Temp"; "Press"])
                 then Some (epoch_column [run3] name) else None))
    ∧ (∀ k b name, ([run1] ++ run2 :: [run3]) !! k = Some b →
         get self name (Z.of_nat k)
         = Done (if decide (name ∈ block_keywords b)
                 then Some (block_column b name) else None)).
Proof.
  refine (column_set_change (E:=externals) header [run1] run2 [run3]
            ["Step"; "Temp"; "Press"] _ _ _ _ _ _).
  - vm_compute. reflexivity.
  - vm_compute. reflexivity.
  - discriminate.
  - repeat constructor.
  - vm_compute. discriminate.
  - distinct_names.
Defined.

(** On [three_runs] the aggregate of [Temp] holds the rows of the third
    run only, and run 0 keeps its own. *)
Example three_runs_temp :
  get (constructed three_runs) "Temp" (-1) = Done (Some ["1.3"; "1.4"])
  ∧ get (constructed three_runs) "Temp" 0 = Done (Some ["1.0"; "1.1"]).
Proof. split; vm_compute; reflexivity. Qed.

(** C3 as stated fails: a log of one settings line has no start string,
    and the constructor returns instead of raising. *)
Lemma no_start_marker_raises_nothing :
  text no_run ≠ EmptyString
  ∧ forallb (λ l, negb (has_start l)) no_run = true
  ∧ init no_run ≠ Raised ValueError.
Proof. split_and!; [done|done|]. rewrite init_no_run. discriminate. Qed.

Lemma no_start_marker_log_witness :
  ∃ self, init no_run = Done self
    ∧ get_num_partial_logs self = 0
    ∧ (∀ name run, (-1 ≤ run)%Z → get self name run = Done None)
    ∧ output_before_first_run self = text no_run
    ∧ length (partial_simulation_settings self) = 1.
Proof.
  apply (no_start_marker_log (E:=externals) no_run).
  - vm_compute. discriminate.
  - vm_compute. reflexivity.
Defined.

(** C4 as stated fails: without any block there is one snapshot, and
    [get_num_partial_logs] is 0. *)
Lemma snapshot_count_without_runs :
  ∃ self, init no_run = Done self
    ∧ length (partial_simulation_settings self) = 1
    ∧ get_num_partial_logs self = 0.
Proof.
  exists (constructed no_run). split; [apply init_no_run|].
  split; vm_compute; reflexivity.
Qed.

Lemma snapshot_count_witness :
  length (partial_simulation_settings (constructed three_runs))
    = 1 + length (intermittent_output (constructed three_runs))
  ∧ (get_num_partial_logs (constructed three_runs) ≠ 0 →
     length (partial_simulation_settings (constructed three_runs))
     = get_num_partial_logs (constructed three_runs))
  ∧ (get_num_partial_logs (constructed three_runs) = 0 →
     length (partial_simulation_settings (constructed three_runs)) = 1).
Proof.
  apply (snapshot_count (E:=externals) three_runs). vm_compute. reflexivity.
Defined.

Lemma chunks_three_runs :
  intermittent_output (constructed three_runs)
  = [[line "timestep 0.01"; memory_line];
     [line "pair_style lj/cut 2.5"; memory_line]].
Proof. vm_compute. reflexivity. Qed.

Lemma settings_cumulative_witness :
  snapshot (constructed three_runs) 2 !! "units" = Some (SStr "lj").
Proof.
  apply (settings_cumulative (E:=externals) three_runs
           (constructed three_runs) 0 2
           (snapshot (constructed three_runs) 0)
           (snapshot (constructed three_runs) 2) "units" (SStr "lj")).
  - vm_compute. reflexivity.
  - lia.
  - vm_compute. reflexivity.
  - vm_compute. reflexivity.
  - vm_compute. reflexivity.
  - intros n chunk line Hn Hc.
    change (intermittent_output (constructed three_runs) !! (n - 1)
            = Some chunk) in Hc.
    rewrite chunks_three_runs in Hc. revert Hc.
    assert (n = 1 ∨ n = 2) as [-> | ->] by lia;
      intros [= <-] Hin;
      repeat (apply elem_of_cons in Hin as [-> |Hin]);
      first [by apply elem_of_nil in Hin | vm_compute; reflexivity].
Defined.

(** C6: the failing input.  On a log with two runs, [get("Temp", -3)]
    and [get_keywords(-3)] raise [IndexError]. *)
Lemma get_below_range_raises_witness :
  get (constructed two_runs) "Temp" (-3) = Raised IndexError
  ∧ get_keywords (constructed two_runs) (-3) = Raised IndexError.
Proof.
  apply (get_below_range_raises (E:=externals) (constructed two_runs)
           "Temp" (-3)%Z).
  - vm_compute. reflexivity.
  - discriminate.
Defined.

(** C7 as stated fails: the first word [unitsfoo] only has a recognized
    name as a prefix, and the line sets [units]. *)
Lemma parse_line_prefix_token :
  name_then_space "unitsfoo bar" = false
  ∧ parse_line "unitsfoo bar" !! "units" = Some (SStr "bar").
Proof. split; vm_compute; reflexivity. Qed.

(** C8 as stated fails: the first start line is part of the text before
    the first run. *)
Lemma output_before_first_run_has_start_line :
  two_runs = header ++ memory_line :: drop 3 two_runs
  ∧ forallb (λ l, negb (has_start l)) header = true
  ∧ has_start memory_line = true
  ∧ ∃ self, init two_runs = Done self
      ∧ output_before_first_run self ≠ text header.
Proof.
  split_and!; [vm_compute; reflexivity..|].
  exists (constructed two_runs). split; [apply init_two_runs|].
  vm_compute. discriminate.
Qed.

Lemma output_before_first_run_lines_witness :
  output_before_first_run (constructed two_runs)
  = text (header ++ [memory_line]).
Proof.
  apply (output_before_first_run_lines (E:=externals) header memory_line
           (drop 3 two_runs) (constructed two_runs)).
  - vm_compute. reflexivity.
  - vm_compute. reflexivity.
  - vm_compute. reflexivity.
Defined.

(** C9 as stated fails: after a second call the list of snapshots is
    twice as long. *)
Lemma second_extraction_differs :
  ∃ self self2, init three_runs = Done self
    ∧ parse_simulation_settings self = Done self2
    ∧ length (partial_simulation_settings self) = 3
    ∧ length (partial_simulation_settings self2) = 6.
Proof.
  exists (constructed three_runs), (extracted_again (constructed three_runs)).
  split; [apply init_three_runs|].
  split_and!; vm_compute; reflexivity.
Qed.

Lemma second_extraction_appends_witness :
  ∃ self2 extra,
    parse_simulation_settings (constructed three_runs) = Done self2
    ∧ partial_simulation_settings self2
      = partial_simulation_settings (constructed three_runs) ++ extra
    ∧ length extra
      = length (partial_simulation_settings (constructed three_runs)).
Proof.
  apply (second_extraction_appends (E:=externals) three_runs).
  vm_compute. reflexivity.
Defined.

Lemma negative_run_index_witness :
  ∃ pd,
    partial_logs (constructed three_runs)
      !! Z.to_nat (Z.of_nat (get_num_partial_logs (constructed three_runs))
                   + -2) = Some pd
    ∧ get (constructed three_runs) "Temp" (-2) = Done (pd !! "Temp")
    ∧ get_keywords (constructed three_runs) (-2)
      = Done (Some (sorted (dict_keys pd)))
    ∧ get (constructed three_runs) "Temp" (-2)
      = get (constructed three_runs) "Temp"
          (Z.of_nat (get_num_partial_logs (constructed three_runs)) + -2)
    ∧ get_keywords (constructed three_runs) (-2)
      = get_keywords (constructed three_runs)
          (Z.of_nat (get_num_partial_logs (constructed three_runs)) + -2).
Proof.
  apply (negative_run_index (E:=externals) (constructed three_runs)
           "Temp" (-2)%Z).
  - vm_compute. discriminate.
  - vm_compute. split; discriminate.
Defined.

(** On the log of three runs, the index -2 gives the second run's column and
    names: neither the aggregate's nor the answer for a missing run. *)
Example second_run_from_the_end :
  get (constructed three_runs) "Temp" (-2) = Done (Some ["1.2"])
  ∧ get_keywords (constructed three_runs) (-2)
    = Done (Some ["Step"; "Temp"])
  ∧ get (constructed three_runs) "Temp" (-1) = Done (Some ["1.3"; "1.4"]).
Proof. vm_compute. done. Qed.

End Examples.

(** ** What the constructor raises *)

Section Raises.
Context `{E : Externals}.
Implicit Types (self st : File) (line : string) (contents : list string).

Lemma append_eq_empty s t :
  s +:+ t = EmptyString → s = EmptyString ∧ t = EmptyString.
Proof. destruct s; [done|]. by rewrite append_cons. Qed.

Lemma text_empty lines :
  text lines = EmptyString ↔ Forall (λ l, l = EmptyString) lines.
Proof.
  induction lines as [|l lines IH]; [done|].
  change (text (l :: lines)) with (l +:+ text lines).
  rewrite Forall_cons, <- IH. split.
  - apply append_eq_empty.
  - by intros [-> ->].
Qed.

Lemma read_file_to_dict_fuel self : read_file_to_dict self ≠ OutOfFuel.
Proof.
  unfold read_file_to_dict.
  pose proof (read_loop_enough_fuel (length (logfile self))
                (set_logfile self []) false true false [] (logfile self)
                (le_n _)).
  by destruct (read_loop _ _ _ _ _ _ _).
Qed.

(** X1.  The loops of [read_file_to_dict] come to an end on every input:
    the reader, the settings pass and the constructor return or raise, and
    the bound on the number of turns of the [while] loop (one per line) is
    never reached. *)
Theorem reader_terminates self contents :
  read_file_to_dict self ≠ OutOfFuel
  ∧ parse_simulation_settings self ≠ OutOfFuel
  ∧ init contents ≠ OutOfFuel.
Proof.
  assert (∀ st, parse_simulation_settings st ≠ OutOfFuel) as Hparse.
  { intros st. unfold parse_simulation_settings.
    destruct (decide _); [|done].
    pose proof (read_file_to_dict_fuel st).
    destruct (read_file_to_dict st); cbn; [|done..].
    by destruct (decide _). }
  split_and!; [apply read_file_to_dict_fuel|apply Hparse|].
  unfold init. pose proof (read_file_to_dict_fuel (new contents)).
  destruct (read_file_to_dict (new contents)); cbn; [apply Hparse|done..].
Qed.

(** While the first run has not begun, an empty text before the first run
    means that every line read so far was empty. *)
Lemma read_loop_output_empty fuel self io tmp contents self' :
  read_loop fuel self false true io tmp contents = Done self' →
  output_before_first_run self' = EmptyString →
  text contents = EmptyString
  ∧ output_before_first_run self = EmptyString.
Proof.
  revert self io tmp contents.
  induction fuel as [|fuel IH]; intros self io tmp [|line rest];
    rewrite ?read_loop_nil; try done; try by intros [= ->].
  rewrite read_loop_cons. cbv zeta.
  destruct (has_start line) eqn:Hs; intros Hloop Hout.
  - apply read_loop_frame in Hloop as (_ & _ & _ & Hframe & _).
    rewrite Hframe in Hout by done. cbn in Hout.
    apply append_eq_empty in Hout as [_ ->]. done.
  - destruct (IH _ _ _ _ Hloop Hout) as [Hrest Hline]. cbn in Hline.
    apply append_eq_empty in Hline as [-> ->].
    change (text (EmptyString :: rest)) with (EmptyString +:+ text rest).
    by rewrite Hrest.
Qed.

(** X2.  The guard of the settings pass (lines 109-113), on the lines the
    stream delivered.  With no text at all (no line, or empty lines only)
    the constructor ends in the [raise] of line 112.  With some text the
    guard never fires: when the first reading returns, there is text before
    the first run and the constructor returns the settings extracted from
    that reading; and whatever the constructor raises was raised by the
    first reading. *)
Theorem no_text_guard contents :
  (text contents = EmptyString → init contents = Raised ValueError)
  ∧ (text contents ≠ EmptyString →
     (∀ st, read_file_to_dict (new contents) = Done st →
        output_before_first_run st ≠ EmptyString
        ∧ init contents = Done (extract_settings st))
     ∧ (∀ e, init contents = Raised e →
        read_file_to_dict (new contents) = Raised e)).
Proof.
  split.
  - intros Hempty. unfold init, parse_simulation_settings.
    assert (forallb (λ l, negb (has_start l)) contents = true) as Hns.
    { apply text_empty in Hempty. apply forallb_forall. intros l Hl.
      rewrite Forall_forall in Hempty.
      by rewrite (Hempty l) by by apply list_elem_of_In. }
    pose proof (read_loop_narrative contents (length contents)
                  (set_logfile (new contents) []) true false [] [] Hns)
      as Hloop.
    rewrite app_nil_r in Hloop.
    unfold read_file_to_dict at 1. cbn [logfile new].
    rewrite Hloop by done. rewrite read_loop_nil. cbn.
    rewrite Hempty. by rewrite decide_True.
  - intros Htext.
    assert (∀ st, read_file_to_dict (new contents) = Done st →
                  output_before_first_run st ≠ EmptyString) as Hout.
    { intros st. unfold read_file_to_dict. cbn [logfile new].
      destruct (read_loop _ _ _ _ _ _ _) as [st0| |] eqn:Hloop; cbn;
        [|done..].
      intros [= <-] Hout. cbn in Hout.
      by apply read_loop_output_empty in Hloop as [? _]. }
    split.
    + intros st Hread. split; [by apply Hout|].
      unfold init, parse_simulation_settings. rewrite Hread. cbn.
      by rewrite decide_False by by apply Hout.
    + intros e. unfold init, parse_simulation_settings.
      destruct (read_file_to_dict (new contents)) as [st|e'|] eqn:Hread;
        cbn; [|done..].
      by rewrite decide_False by by apply Hout.
Qed.

End Raises.

(** ** The accessors *)

Section Accessors.
Context `{E : Externals}.
Implicit Types (self st : File) (line : string) (contents : list string).
Implicit Types (dd pd : gmap string (list cell)).

Lemma index_Done {A} (l : list A) (i : Z) :
  (- Z.of_nat (length l) ≤ i < Z.of_nat (length l))%Z →
  ∃ x, index l i = Done x
    ∧ l !! Z.to_nat (if (i <? 0)%Z then i + Z.of_nat (length l) else i)%Z
      = Some x.
Proof.
  intros Hi. unfold index. cbv zeta.
  set (j := if (i <? 0)%Z then (i + Z.of_nat (length l))%Z else i).
  assert (0 ≤ j < Z.of_nat (length l))%Z as Hj.
  { unfold j. destruct (Z.ltb_spec i 0); lia. }
  destruct (Z.leb_spec 0 j); [|lia].
  destruct (Z.ltb_spec j (Z.of_nat (length l))); [|lia]. cbn [andb].
  destruct (lookup_lt_is_Some_2 l (Z.to_nat j)) as [x Hx]; [lia|].
  rewrite Hx. by exists x.
Qed.

Lemma index_Raised {A} (l : list A) (i : Z) :
  (i < - Z.of_nat (length l) ∨ Z.of_nat (length l) ≤ i)%Z →
  index l i = Raised IndexError.
Proof.
  intros Hi. unfold index. cbv zeta.
  destruct (Z.ltb_spec i 0).
  - destruct (Z.leb_spec 0 (i + Z.of_nat (length l))); [|done].
    destruct (Z.ltb_spec (i + Z.of_nat (length l)) (Z.of_nat (length l)));
      [lia|done].
  - destruct (Z.leb_spec 0 i); [|done].
    destruct (Z.ltb_spec i (Z.of_nat (length l))); [lia|done].
Qed.

(** X4.  When [get] and [get_keywords] raise: exactly for a run index
    below [-R] other than -1, [R] being the number of runs; the exception
    is [IndexError].  For an index of [R] or more both return [None]. *)
Theorem get_raises_iff self name run e :
  let R := Z.of_nat (length (partial_logs self)) in
  (get self name run = Raised e ↔ (run < - R)%Z ∧ run ≠ (-1)%Z
                                    ∧ e = IndexError)
  ∧ (get_keywords self run = Raised e ↔ (run < - R)%Z ∧ run ≠ (-1)%Z
                                          ∧ e = IndexError)
  ∧ ((R ≤ run)%Z →
     get self name run = Done None ∧ get_keywords self run = Done None).
Proof.
  cbv zeta. unfold get, get_keywords.
  destruct (decide (run = (-1)%Z)) as [->|Hne].
  { split_and!.
    - destruct (data_dict self !! name); split; try done; by intros (_&?&_).
    - split; [done|by intros (_&?&_)].
    - lia. }
  destruct (Z.ltb_spec run (Z.of_nat (length (partial_logs self))))
    as [Hlt|Hge].
  - destruct (Z_lt_le_dec run (- Z.of_nat (length (partial_logs self))))
      as [Hlow|Hin].
    + rewrite index_Raised by lia. cbn. split_and!; [| |lia].
      * split; [by intros [= <-]|by intros (_&_&->)].
      * split; [by intros [= <-]|by intros (_&_&->)].
    + destruct (index_Done (partial_logs self) run) as (pd & -> & _); [lia|].
      cbn. split_and!; [| |lia].
      * destruct (pd !! name); split; try done; intros (?&_); lia.
      * split; [done|intros (?&_); lia].
  - split_and!; [| |done].
    + split; [done|intros (?&_); lia].
    + split; [done|intros (?&_); lia].
Qed.

(** X5.  [to_dataframe] takes its dictionary straight from the list of
    runs: on an object without runs it raises [IndexError] for every run
    index, the default -1 included; with [R >= 1] runs the default -1 is
    the last run, whose columns are those [get(name, R-1)] returns, and
    not the aggregate. *)
Theorem to_dataframe_runs self :
  (partial_logs self = [] →
   ∀ run, to_dataframe self run = Raised IndexError)
  ∧ (partial_logs self ≠ [] →
     ∃ pd, to_dataframe self (-1) = Done pd
       ∧ last (partial_logs self) = Some pd
       ∧ ∀ name,
           get self name (Z.of_nat (length (partial_logs self)) - 1)
           = Done (pd !! name)).
Proof.
  unfold to_dataframe. split.
  - intros -> run. apply index_Raised. cbn. lia.
  - intros Hne.
    assert (0 < length (partial_logs self)) as Hlen.
    { destruct (partial_logs self); [done|cbn; lia]. }
    destruct (index_Done (partial_logs self) (-1)) as (pd & -> & Hpd); [lia|].
    cbn in Hpd.
    replace (Z.to_nat (-1 + Z.of_nat (length (partial_logs self))))
      with (pred (length (partial_logs self))) in Hpd by lia.
    exists pd. split_and!; [done|by rewrite last_lookup|].
    intros name.
    replace (Z.of_nat (length (partial_logs self)) - 1)%Z
      with (Z.of_nat (pred (length (partial_logs self)))) by lia.
    by apply get_run.
Qed.

Lemma index_last {A} (l : list A) :
  l ≠ [] → ∃ x, index l (-1) = Done x ∧ last l = Some x.
Proof.
  intros Hne.
  assert (0 < length l) as Hlen by (destruct l; [done|cbn; lia]).
  destruct (index_Done l (-1)) as (x & -> & Hx); [lia|].
  cbn in Hx.
  replace (Z.to_nat (-1 + Z.of_nat (length l))) with (pred (length l))
    in Hx by lia.
  exists x. by rewrite last_lookup.
Qed.

(** Line 156: after each chunk the accumulator is the snapshot just
    taken. *)
Lemma settings_steps_accumulator self chunks :
  simulation_settings (foldl settings_step self chunks)
  = default (simulation_settings self)
      (last (snapshots_from (simulation_settings self) chunks)).
Proof.
  revert self. induction chunks as [|chunk chunks IH]; intros self; [done|].
  cbn [foldl snapshots_from]. rewrite IH. cbn. rewrite update_overlay.
  rewrite last_cons. by destruct (last _).
Qed.

(** X6.  On a constructed object the list of snapshots is never empty:
    [get_simulation_settings] returns for the default -1, and what it
    returns there is the attribute [simulation_settings], the most recent
    settings; for the index 0 it returns the settings read from the text
    before the first run. *)
Theorem get_simulation_settings_constructed contents self :
  init contents = Done self →
  get_simulation_settings self (-1) = Done (simulation_settings self)
  ∧ get_simulation_settings self 0
    = Done (overlay ∅ (splitlines (output_before_first_run self))).
Proof.
  intros (st & Hread & _ & ->)%init_Done.
  apply read_file_to_dict_new in Hread as (Hss & Hpss & _).
  unfold get_simulation_settings.
  destruct (extract_settings_spec st) as (Hp & _ & Ho & _).
  rewrite Hp, Hpss, Hss, Ho. cbn [app]. split; [|done].
  destruct (index_last
              (overlay ∅ (splitlines (output_before_first_run st))
               :: snapshots_from
                    (overlay ∅ (splitlines (output_before_first_run st)))
                    (intermittent_output st))) as (x & -> & Hx); [done|].
  f_equal. unfold extract_settings. cbv zeta.
  rewrite settings_steps_accumulator. cbn. rewrite Hss.
  rewrite last_cons in Hx. destruct (last _); by injection Hx.
Qed.

Lemma settings_steps_logfile self chunks :
  logfile (foldl settings_step self chunks) = logfile self.
Proof.
  revert self. induction chunks as [|c chunks IH]; intros self; [done|].
  cbn [foldl]. by rewrite IH.
Qed.

Lemma extract_settings_logfile self :
  logfile (extract_settings self) = logfile self.
Proof.
  unfold extract_settings. cbv zeta. by rewrite settings_steps_logfile.
Qed.

Lemma read_file_to_dict_nothing self :
  logfile self = [] →
  read_file_to_dict self
  = Done (set_intermittent_output self (tail (intermittent_output self))).
Proof.
  intros Hlf. unfold read_file_to_dict. rewrite Hlf, read_loop_nil.
  destruct self. cbn in *. by subst.
Qed.

(** X7.  Reading again after the constructor: the stream has nothing
    left, so [read_file_to_dict] returns, adds no run and no text, and its
    last statement drops the first narrative chunk once more. *)
Theorem read_again_drops_chunk contents self :
  init contents = Done self →
  read_file_to_dict self
  = Done (set_intermittent_output self (tail (intermittent_output self))).
Proof.
  intros (st & Hread & _ & ->)%init_Done.
  apply read_file_to_dict_frame in Hread as (Hlf & _).
  apply read_file_to_dict_nothing. by rewrite extract_settings_logfile.
Qed.

(** X18.  On a constructed object with [R] runs there are [max 1 R]
    snapshots: [get_simulation_settings(run_num)] returns a snapshot for
    [-n <= run_num < n], [n] being that number, and raises [IndexError]
    for every other index; it has no not-found value. *)
Theorem get_simulation_settings_bounds contents self run :
  init contents = Done self →
  let n := Z.of_nat (max 1 (get_num_partial_logs self)) in
  ((- n ≤ run < n)%Z → ∃ s, get_simulation_settings self run = Done s)
  ∧ ((run < - n ∨ n ≤ run)%Z →
     get_simulation_settings self run = Raised IndexError).
Proof.
  intros (st & Hread & _ & ->)%init_Done.
  apply read_file_to_dict_new in Hread as (_ & Hpss & Hlen).
  destruct (extract_settings_spec st) as (Hp & _ & _ & Hpl & _).
  assert (length (partial_simulation_settings (extract_settings st))
          = max 1 (get_num_partial_logs (extract_settings st))) as Hn.
  { unfold get_num_partial_logs. rewrite Hp, Hpl, Hpss. cbn.
    rewrite length_snapshots_from. lia. }
  cbv zeta. rewrite <- Hn. unfold get_simulation_settings. split.
  - intros Hrun. destruct (index_Done _ _ Hrun) as (s & Hs & _). by exists s.
  - apply index_Raised.
Qed.

End Accessors.

(** ** Column names *)

Section ColumnNames.
Context `{E : Externals}.
Implicit Types (self st : File) (line : string) (contents : list string).
Implicit Types (dd pd : gmap string (list cell)).

(** [sorted] keeps the elements and puts them in ascending order. *)
Lemma insert_sorted_perm x l : insert_sorted x l ≡ₚ x :: l.
Proof.
  induction l as [|y l IH]; [done|]. cbn.
  destruct (String.leb x y); [done|]. rewrite IH. apply Permutation_swap.
Qed.

Lemma sorted_perm l : sorted l ≡ₚ l.
Proof.
  induction l as [|x l IH]; [done|]. cbn.
  by rewrite insert_sorted_perm, IH.
Qed.

Lemma insert_sorted_Sorted x l :
  Sorted String.le l → Sorted String.le (insert_sorted x l).
Proof.
  induction 1 as [|y l Hl IH Hy]; cbn; [by repeat constructor|].
  destruct (String.leb x y) eqn:Hxy.
  - constructor; [by constructor|]. constructor.
    unfold String.le. by rewrite Hxy.
  - assert (String.le y x) as Hyx.
    { destruct (total String.le x y) as [Hle|Hle]; [|done].
      unfold String.le in Hle. by rewrite Hxy in Hle. }
    constructor; [done|].
    destruct l as [|z l]; cbn in *.
    + by constructor.
    + destruct (String.leb x z); constructor; [done|].
      by inversion Hy.
Qed.

Lemma sorted_Sorted l : Sorted String.le (sorted l).
Proof.
  induction l as [|x l IH]; cbn; [constructor|].
  by apply insert_sorted_Sorted.
Qed.

Lemma merge_columns_keys df names dd pd dd' pd' :
  merge_columns df names dd pd = Done (dd', pd') →
  ∀ n, is_Some (dd' !! n) ↔ is_Some (dd !! n).
Proof.
  revert dd pd. induction names as [|name names IH]; intros dd pd.
  - by intros [= <- <-].
  - cbn [merge_columns]. unfold getitem.
    destruct (dd !! name) as [old|] eqn:Hold; cbn; [|done].
    destruct (df_getitem df name) as [col| |]; cbn; [|done..].
    intros Hm n. rewrite (IH _ _ Hm n), lookup_insert_is_Some.
    split.
    + intros [<-|[_ ?]]; [by rewrite Hold|done].
    + intros Hn. destruct (decide (name = n)); [by left|by right].
Qed.

Lemma absorb_keys self kws df self' :
  keys_match self → absorb self kws df = Done self' → keys_match self'.
Proof.
  intros Hkeys. unfold absorb.
  destruct (merge_columns _ _ _ _) as [[dd' pd']| |] eqn:Hm; cbn; [|done..].
  intros [= <-] n. cbn. rewrite (merge_columns_keys _ _ _ _ _ _ Hm n).
  case_bool_decide as Hkw; cbn.
  - by rewrite flushed_lookup, lookup_empty; destruct (decide (n ∈ kws));
      split; try done; intros [].
  - apply Hkeys.
Qed.

Lemma read_loop_keys fuel self kf bf io tmp contents self' :
  keys_match self →
  read_loop fuel self kf bf io tmp contents = Done self' →
  keys_match self'.
Proof.
  revert self kf bf io tmp contents.
  induction fuel as [|fuel IH]; intros self kf bf io tmp [|line rest] Hkeys;
    rewrite ?read_loop_nil; try done; try by intros [= <-].
  rewrite read_loop_cons. cbv zeta.
  assert (keys_match (if bf
                      then set_output_before_first_run self
                             (output_before_first_run self +:+ line)
                      else self)) as Hkeys1 by by destruct bf.
  destruct kf.
  - destruct (gather line rest EmptyString) as [[tmpString l'] rest'].
    destruct (read_table tmpString); [|done].
    destruct (absorb _ _ _) as [self1| |] eqn:Habs; cbn; [|done..].
    apply (absorb_keys _ _ _ _ Hkeys1) in Habs.
    destruct (has_start l'); by apply IH.
  - destruct (has_start line); by apply IH.
Qed.

Lemma init_keys contents self : init contents = Done self → keys_match self.
Proof.
  intros (st & Hread & _ & ->)%init_Done.
  assert (keys_match st) as Hst.
  { revert Hread. unfold read_file_to_dict.
    destruct (read_loop _ _ _ _ _ _ _) as [st0| |] eqn:Hloop; cbn; [|done..].
    intros [= <-]. apply read_loop_keys in Hloop; [done|].
    intros n. cbn. rewrite lookup_empty. split; [by intros []|].
    by intros ?%elem_of_nil. }
  destruct (extract_settings_spec st) as (_ & _ & _ & _ & Hdd & Hkw).
  unfold keys_match. intros n. rewrite Hdd, Hkw. apply Hst.
Qed.

(** X8.  On a constructed object, whatever the input, [names] (that is
    [get_keywords()]) lists exactly the names for which [get(name)]
    returns a column of the aggregate, in ascending order. *)
Theorem names_are_aggregate_columns contents self :
  init contents = Done self →
  ∃ l, names self = Done (Some l)
    ∧ Sorted String.le l
    ∧ ∀ name, name ∈ l ↔ ∃ v, get self name (-1) = Done (Some v).
Proof.
  intros Hkeys%init_keys. exists (sorted (keywords self)).
  split_and!; [done|apply sorted_Sorted|].
  intros name. rewrite sorted_perm, <- (Hkeys name), get_aggregate.
  split.
  - intros [v ->]. by exists v.
  - intros [v [= ->]]. by exists v.
Qed.

(** X9.  For a run index other than -1 on which [get_keywords] returns a
    list: the list is in ascending order, has no name twice, and holds
    exactly the names for which [get(name, run_num)] returns a column. *)
Theorem get_keywords_of_run self run l :
  run ≠ (-1)%Z →
  get_keywords self run = Done (Some l) →
  Sorted String.le l ∧ NoDup l
  ∧ ∀ name, name ∈ l ↔ ∃ v, get self name run = Done (Some v).
Proof.
  intros Hne. unfold get_keywords, get.
  destruct (decide (run = (-1)%Z)); [done|].
  destruct (run <? _)%Z; [|done].
  destruct (index (partial_logs self) run) as [pd| |]; cbn; [|done..].
  intros [= <-]. split_and!.
  - apply sorted_Sorted.
  - rewrite sorted_perm. apply NoDup_fst_map_to_list.
  - intros name. rewrite sorted_perm. unfold dict_keys.
    rewrite list_elem_of_fmap. split.
    + intros ([k v] & -> & Hin%elem_of_map_to_list). cbn.
      rewrite Hin. by exists v.
    + intros [v Hv]. destruct (pd !! name) as [v'|] eqn:Hpd; [|done].
      exists (name, v'). split; [done|]. by apply elem_of_map_to_list.
Qed.

End ColumnNames.

(** ** Logs of blocks with any column sets *)

Section Shape.
Context `{E : Externals}.
Implicit Types (self st : File) (b : block) (blocks : list block).

Lemma chunks_from_between b blocks :
  chunks_from (b_gap b) true blocks = chunks_between (b :: blocks).
Proof.
  revert b. induction blocks as [|b2 blocks IH]; intros b; [done|].
  cbn [chunks_from chunks_between]. by rewrite IH.
Qed.

(** The chunks the reader appends while it reads well-formed blocks. *)
Lemma read_loop_chunks blocks self fuel bf io tmp self' :
  blocks_ok blocks = true →
  forallb block_parses blocks = true →
  length (concat (block_lines <$> blocks)) ≤ fuel →
  read_loop fuel self false bf io tmp (concat (block_lines <$> blocks))
    = Done self' →
  intermittent_output self'
  = intermittent_output self ++ chunks_from tmp io blocks.
Proof.
  revert self fuel bf io tmp.
  induction blocks as [|b blocks IH]; intros self fuel bf io tmp Hok Hp Hfuel.
  - cbn. rewrite read_loop_nil. intros [= <-]. by rewrite app_nil_r.
  - apply blocks_ok_cons in Hok as (Hb & Hlast & Hok).
    cbn [forallb] in Hp. apply andb_true_iff in Hp as [Hpb Hp].
    apply block_parses_spec in Hpb as (df & Hdf & _).
    cbn [fmap list_fmap concat] in *.
    erewrite read_loop_block by done.
    destruct (absorb _ _ _) as [self1| |] eqn:Habs; cbn [bind]; [|done..].
    apply absorb_frame in Habs as (_ & Hio & _).
    intros Hloop%IH; [|done..]. rewrite Hloop. cbn.
    rewrite Hio, <- app_assoc. by destruct bf.
Qed.

Lemma runs_inv_step all seen b rest self :
  forallb block_parses all = true →
  all = seen ++ b :: rest →
  runs_inv seen self →
  ∃ df self', read_table (block_text b) = Some df
    ∧ absorb self (block_keywords b) df = Done self'
    ∧ runs_inv (seen ++ [b]) self'.
Proof.
  intros Hparse Hall (Hpl & Hkeys & Hkw).
  assert (block_parses b = true) as Hb.
  { rewrite forallb_forall in Hparse. apply Hparse.
    rewrite Hall. apply in_elt. }
  apply block_parses_spec in Hb as (df & Hdf & Hcols & Hcol & _).
  destruct (absorb_spec self (block_keywords b) df Hkeys Hcols)
    as (self' & pd & Habs & Hkw' & Hpl' & Hpd & Hkeys' & _).
  exists df, self'. split_and!; [done..|].
  unfold runs_inv. split_and!.
  - rewrite Hpl'. apply Forall2_app; [done|].
    constructor; [|constructor]. intros n. rewrite Hpd. by rewrite Hcol.
  - by rewrite Hkw'.
  - by rewrite Hkw', last_keywords_snoc.
Qed.

(** The object the constructor builds from a log of well-formed blocks
    that the parser accepts. *)
Lemma read_log_shape pre b1 blocks :
  log_ok pre (b1 :: blocks) = true →
  forallb block_parses (b1 :: blocks) = true →
  let s0 := overlay ∅ (splitlines (text (pre ++ [b_start b1]))) in
  ∃ self, init (log_lines pre (b1 :: blocks)) = Done self
    ∧ runs_inv (b1 :: blocks) self
    ∧ output_before_first_run self = text (pre ++ [b_start b1])
    ∧ intermittent_output self = chunks_between (b1 :: blocks)
    ∧ partial_simulation_settings self
      = s0 :: snapshots_from s0 (chunks_between (b1 :: blocks)).
Proof.
  intros Hok Hparse s0.
  apply andb_true_iff in Hok as [Hpre Hok].
  destruct (read_loop_blocks runs_inv (b1 :: blocks))
    with (blocks := b1 :: blocks) (seen := @nil block)
         (self := set_output_before_first_run (set_logfile
                    (new (log_lines pre (b1 :: blocks))) [])
                    (EmptyString +:+ text pre))
         (fuel := length (concat (block_lines <$> b1 :: blocks)))
         (bf := true) (io := false) (tmp := @nil string)
    as (st0 & Hloop & Hinv); try done.
  { intros seen b rest self Hall Hseen.
    by apply runs_inv_step with (b1 :: blocks) rest. }
  { unfold runs_inv. cbn. split_and!; try done.
    intros n Hn. by apply elem_of_nil in Hn. }
  pose proof (read_loop_chunks _ _ _ _ _ _ _ Hok Hparse (le_n _) Hloop)
    as Hchunks.
  cbn [chunks_from intermittent_output set_output_before_first_run
         set_logfile new app] in Hchunks.
  rewrite chunks_from_between in Hchunks.
  set (st := set_intermittent_output st0 (tail (intermittent_output st0))).
  assert (read_file_to_dict (new (log_lines pre (b1 :: blocks))) = Done st)
    as Hread.
  { unfold read_file_to_dict, log_lines. cbn [logfile new].
    rewrite read_loop_narrative by done. cbn -[log_lines].
    unfold log_lines in Hloop. cbn in Hloop. by rewrite Hloop. }
  assert (output_before_first_run st = text (pre ++ [b_start b1])) as Hout.
  { pose proof Hread as Hread'.
    unfold log_lines, block_lines in Hread'.
    cbn [fmap list_fmap concat app] in Hread'.
    apply blocks_ok_cons in Hok as (Hb1 & _).
    unfold block_ok in Hb1. repeat apply andb_true_iff in Hb1 as [Hb1 _].
    by apply (read_file_to_dict_output _ _ _ _ Hpre Hb1 Hread'). }
  destruct (read_file_to_dict_new _ _ Hread) as (Hss & Hpss & _).
  exists (extract_settings st).
  destruct (extract_settings_spec st) as (Hp & Hio & Ho & Hpl & Hdd & Hkw).
  split_and!.
  - apply init_Done. exists st. split_and!; [done| |done].
    rewrite Hout, text_snoc. apply append_nonempty_r.
    apply blocks_ok_cons in Hok as (Hb1 & _).
    unfold block_ok in Hb1. repeat apply andb_true_iff in Hb1 as [Hb1 _].
    by apply has_start_nonempty.
  - destruct Hinv as (H1 & H2 & H3).
    unfold runs_inv. rewrite Hpl, Hdd, Hkw. by split_and!.
  - by rewrite Ho.
  - rewrite Hio. unfold st. cbn. by rewrite Hchunks.
  - rewrite Hp, Hpss, Hss, Hout. cbn [app]. unfold st. cbn.
    by rewrite Hchunks.
Qed.

(** X10.  A log of well-formed blocks that the parser accepts, whatever
    their column sets (a name may even come twice in a header): the
    constructor returns, there is one run per block, [names] is the
    sorted header of the last block, [get_keywords(k)] lists exactly the
    names of the header of block [k], and [get(name, k)] is the column of
    block [k] for these names and [None] for the others. *)
Theorem runs_of_log pre b1 blocks :
  log_ok pre (b1 :: blocks) = true →
  forallb block_parses (b1 :: blocks) = true →
  ∃ self, init (log_lines pre (b1 :: blocks)) = Done self
    ∧ get_num_partial_logs self = length (b1 :: blocks)
    ∧ names self = Done (Some (sorted (last_keywords (b1 :: blocks))))
    ∧ ∀ k b, (b1 :: blocks) !! k = Some b →
        (∃ l, get_keywords self (Z.of_nat k) = Done (Some l)
           ∧ ∀ name, name ∈ l ↔ name ∈ block_keywords b)
        ∧ ∀ name, get self name (Z.of_nat k)
                  = Done (if decide (name ∈ block_keywords b)
                          then Some (block_column b name) else None).
Proof.
  intros Hok Hparse.
  destruct (read_log_shape pre b1 blocks Hok Hparse)
    as (self & Hinit & (Hpl & _ & Hkw) & _).
  exists self. split_and!; [done| | |].
  - unfold get_num_partial_logs. symmetry. by eapply Forall2_length.
  - unfold names, get_keywords. cbn. by rewrite Hkw.
  - intros k b Hk.
    destruct (Forall2_lookup_l _ _ _ _ _ Hpl Hk) as (pd & Hpd & Hrun).
    pose proof (lookup_lt_Some _ _ _ Hpd) as Hlt.
    split; [|intros name; by rewrite (get_run _ _ _ _ Hpd), Hrun].
    exists (sorted (dict_keys pd)). split.
    + unfold get_keywords. rewrite decide_False by lia.
      destruct (Z.ltb_spec (Z.of_nat k)
                  (Z.of_nat (length (partial_logs self)))); [|lia].
      destruct (index_Done (partial_logs self) (Z.of_nat k))
        as (pd' & -> & Hpd'); [lia|]. cbn.
      destruct (Z.ltb_spec (Z.of_nat k) 0); [lia|].
      rewrite Nat2Z.id in Hpd'. by simplify_eq.
    + intros name. rewrite sorted_perm. unfold dict_keys.
      rewrite list_elem_of_fmap. split.
      * intros ([n v] & -> & Hin%elem_of_map_to_list). cbn.
        rewrite (Hrun n) in Hin. by destruct (decide (n ∈ block_keywords b)).
      * intros Hname. exists (name, block_column b name). split; [done|].
        apply elem_of_map_to_list. rewrite (Hrun name).
        by rewrite decide_True.
Qed.

(** X11.  The narrative chunks of such a log: the chunk between two
    blocks holds the lines after the stop line of the first up to and
    including the start line of the second; the lines after the last
    block are in no chunk. *)
Theorem chunks_of_log pre b1 blocks :
  log_ok pre (b1 :: blocks) = true →
  forallb block_parses (b1 :: blocks) = true →
  ∃ self, init (log_lines pre (b1 :: blocks)) = Done self
    ∧ intermittent_output self = chunks_between (b1 :: blocks).
Proof.
  intros Hok Hparse.
  destruct (read_log_shape pre b1 blocks Hok Hparse)
    as (self & Hinit & _ & _ & Hio & _).
  by exists self.
Qed.

(** X12.  The settings of such a log: the first snapshot is read from the
    lines up to and including the first start line, and each further
    snapshot overlays the chunk before its block on the snapshot before;
    settings lines after the last block reach no snapshot. *)
Theorem settings_of_log pre b1 blocks :
  log_ok pre (b1 :: blocks) = true →
  forallb block_parses (b1 :: blocks) = true →
  ∃ self, init (log_lines pre (b1 :: blocks)) = Done self
    ∧ partial_simulation_settings self
      = overlay ∅ (splitlines (text (pre ++ [b_start b1])))
        :: snapshots_from
             (overlay ∅ (splitlines (text (pre ++ [b_start b1]))))
             (chunks_between (b1 :: blocks)).
Proof.
  intros Hok Hparse.
  destruct (read_log_shape pre b1 blocks Hok Hparse)
    as (self & Hinit & _ & _ & _ & Hpss).
  by exists self.
Qed.

End Shape.

(** ** Settings lines *)

Section SettingsLines.
Context `{E : Externals}.
Implicit Types (line s t p q k : string) (kws : list string).

Lemma startswith_nil s : startswith s EmptyString = true.
Proof. by destruct s. Qed.

Lemma startswith_app p t k :
  startswith p k = true → startswith (p +:+ t) k = true.
Proof.
  revert p. induction k as [|b k IH]; intros p;
    [by rewrite !startswith_nil|].
  destruct p as [|a p]; [done|].
  rewrite append_cons. cbn. destruct (decide (a = b)); [apply IH|done].
Qed.

Lemma rstrip_prefix s : ∃ t, s = rstrip s +:+ t.
Proof.
  induction s as [|c s [t IH]]; [by exists EmptyString|].
  cbn. destruct (rstrip s) as [|c' r] eqn:Hr.
  - destruct (isspace c).
    + by exists (String c s).
    + exists s. by rewrite append_cons.
  - exists t. rewrite append_cons. by rewrite <- IH.
Qed.

Lemma split_on_head sep cur s :
  ∃ p t, s = p +:+ t ∧ hd EmptyString (split_on_from sep cur s) = cur +:+ p.
Proof.
  revert cur. induction s as [|a s IH]; intros cur.
  - exists EmptyString, EmptyString. split; [done|].
    cbn. by rewrite append_nil_r.
  - cbn. destruct (decide (a = sep)).
    + exists EmptyString, (String a s). split; [done|].
      cbn. by rewrite append_nil_r.
    + destruct (IH (snoc cur a)) as (p & t & -> & ->).
      exists (String a p), t. split; [done|].
      unfold snoc. by rewrite append_assoc.
Qed.

Lemma lstrip_app_startswith p q k :
  k ≠ EmptyString →
  startswith (lstrip p) k = true → startswith (lstrip (p +:+ q)) k = true.
Proof.
  intros Hk. induction p as [|a p IH]; cbn.
  - by destruct k.
  - rewrite append_cons. cbn. destruct (isspace a); [done|].
    intros Hp. by apply (startswith_app (String a p)).
Qed.

Lemma startswith_comparable s k1 k2 :
  startswith s k1 = true → startswith s k2 = true →
  startswith k1 k2 = true ∨ startswith k2 k1 = true.
Proof.
  revert k1 k2. induction s as [|a s IH]; intros [|b1 k1] [|b2 k2]; cbn;
    try (by auto).
  destruct (decide (a = b1)) as [<-|]; [|done].
  destruct (decide (a = b2)) as [<-|]; [|done].
  rewrite !decide_True by done. apply IH.
Qed.

(** A name that begins the trimmed line begins the line once the leading
    white space is off, also after the comment is cut. *)
Lemma strip_startswith_lstrip line k :
  startswith (strip line) k = true → startswith (lstrip line) k = true.
Proof.
  unfold strip. destruct (rstrip_prefix (lstrip line)) as [t Ht].
  intros Hk. rewrite Ht. by apply startswith_app.
Qed.

Lemma cut_comment_startswith line k :
  k ≠ EmptyString →
  startswith (strip (hd EmptyString (split_on "#"%char line))) k = true →
  startswith (lstrip line) k = true.
Proof.
  intros Hk Hcut%strip_startswith_lstrip. unfold split_on in Hcut.
  destruct (split_on_head "#"%char EmptyString line) as (p & t & -> & Hp).
  rewrite Hp, append_nil_l in Hcut. by apply lstrip_app_startswith.
Qed.

Lemma apart_cons kw kws :
  apart (kw :: kws) = true →
  (∀ kw', kw' ∈ kws →
     startswith kw kw' = false ∧ startswith kw' kw = false)
  ∧ apart kws = true.
Proof.
  cbn [apart]. intros [Hkw Hkws]%andb_true_iff. split; [|done].
  intros kw' Hin. rewrite forallb_forall in Hkw.
  apply list_elem_of_In, Hkw, andb_true_iff in Hin as [H1 H2].
  by apply negb_true_iff in H1, H2.
Qed.

Lemma parse_kws_single line kws kw :
  apart kws = true →
  kw ∈ kws →
  startswith (strip line) kw = true →
  foldl parse_kw (line, ∅) kws
  = (hd EmptyString (split_on "#"%char line),
     {[ kw := setting_of_parts
                (strip <$> tail (split (hd EmptyString
                                          (split_on "#"%char line)))) ]}).
Proof.
  intros Hapart Hin Hkw. pose proof (strip_startswith_lstrip _ _ Hkw) as Hl.
  induction kws as [|k kws IH]; [by apply elem_of_nil in Hin|].
  apply apart_cons in Hapart as [Hk Hapart]. cbn [foldl].
  destruct (decide (k = kw)) as [->|Hne].
  - unfold parse_kw at 2. rewrite Hkw. rewrite insert_empty.
    apply parse_kws_no_match. intros kw' Hin'.
    destruct (Hk kw' Hin') as [H1 H2].
    destruct (startswith (strip _) kw') eqn:Hcut; [|done].
    apply cut_comment_startswith in Hcut; [|by intros ->; destruct kw].
    destruct (startswith_comparable _ _ _ Hl Hcut); congruence.
  - apply elem_of_cons in Hin as [?|Hin]; [done|].
    destruct (Hk kw Hin) as [H1 H2].
    assert (startswith (strip line) k = false) as Hno.
    { destruct (startswith (strip line) k) eqn:Hs; [|done].
      apply strip_startswith_lstrip in Hs.
      destruct (startswith_comparable _ _ _ Hs Hl); congruence. }
    unfold parse_kw at 2. rewrite Hno. by apply IH.
Qed.

Lemma apart_sim_settings_kws : apart sim_settings_kws = true.
Proof. vm_compute. reflexivity. Qed.

(** X13.  A line that, once trimmed, begins with a recognized name sets
    that name and no other: the value is built from the words that follow
    the first word of the text before the first [#] (a float or the word
    itself for one word, the words joined by single spaces otherwise). *)
Theorem parse_line_single line kw :
  kw ∈ sim_settings_kws →
  startswith (strip line) kw = true →
  parse_line line
  = {[ kw := setting_of_parts
               (strip <$> tail (split (hd EmptyString
                                         (split_on "#"%char line)))) ]}.
Proof.
  intros Hin Hkw. unfold parse_line.
  by rewrite (parse_kws_single line sim_settings_kws kw
                apart_sim_settings_kws Hin Hkw).
Qed.

Lemma overlay_app d lines1 lines2 :
  overlay d (lines1 ++ lines2) = overlay (overlay d lines1) lines2.
Proof. apply foldl_app. Qed.

(** X14.  Within the lines overlaid on a dictionary, the last line that
    sets a key decides its value, whatever the dictionary and the earlier
    lines held. *)
Theorem overlay_last_wins (d : gmap string setting) lines1 line lines2 key v :
  parse_line line !! key = Some v →
  (∀ l, l ∈ lines2 → parse_line l !! key = None) →
  overlay d (lines1 ++ line :: lines2) !! key = Some v.
Proof.
  intros Hv Hrest. rewrite overlay_app, overlay_cons.
  rewrite overlay_untouched by done. unfold update.
  by apply lookup_union_Some_l.
Qed.

End SettingsLines.

(** ** Runs and start lines *)

Section RunBound.
Context `{E : Externals}.
Implicit Types (self st : File) (line : string) (contents : list string).

Lemma start_lines_app l1 l2 :
  start_lines (l1 ++ l2) = start_lines l1 + start_lines l2.
Proof. unfold start_lines. by rewrite List.filter_app, length_app. Qed.

Lemma start_lines_cons line contents :
  start_lines (line :: contents)
  = (if has_start line then 1 else 0) + start_lines contents.
Proof. unfold start_lines. cbn. by destruct (has_start line). Qed.

(** The inner loop stops inside the lines it was given. *)
Lemma gather_suffix line rest acc :
  ∃ skipped,
    line :: rest
    = skipped ++ (gather line rest acc).1.2 :: (gather line rest acc).2.
Proof.
  revert line acc. induction rest as [|l rest IH]; intros line acc;
    rewrite gather_eq; destruct (has_stop line); cbn [fst snd];
    try by exists [].
  cbv zeta.
  destruct (IH l (if contains nl line then acc +:+ line else acc))
    as [skipped Hs].
  exists (line :: skipped). cbn. by rewrite <- Hs.
Qed.

Lemma read_loop_runs_bound fuel self kf bf io tmp contents self' :
  read_loop fuel self kf bf io tmp contents = Done self' →
  length (partial_logs self')
  ≤ length (partial_logs self) + start_lines contents
    + (if kf then 1 else 0).
Proof.
  revert self kf bf io tmp contents.
  induction fuel as [|fuel IH]; intros self kf bf io tmp [|line rest];
    rewrite ?read_loop_nil; try done; try (intros [= <-]; lia).
  rewrite read_loop_cons. cbv zeta. rewrite start_lines_cons. destruct kf.
  - destruct (gather_suffix line rest EmptyString) as [skipped Hs].
    destruct (gather line rest EmptyString) as [[tmpString l'] rest'].
    cbn [fst snd] in Hs.
    destruct (read_table tmpString); [|done].
    destruct (absorb _ _ _) as [self1| |] eqn:Habs; cbn [bind]; [|done..].
    apply absorb_frame in Habs as (_ & _ & _ & _ & _ & Hpl).
    assert (start_lines (line :: rest)
            = start_lines skipped
              + ((if has_start l' then 1 else 0) + start_lines rest'))
      as Hcount by by rewrite Hs, start_lines_app, start_lines_cons.
    rewrite start_lines_cons in Hcount.
    destruct (has_start l'); intros Hloop%IH; cbn in Hloop;
      destruct bf; cbn in *; lia.
  - destruct (has_start line); intros Hloop%IH; destruct bf; cbn in *; lia.
Qed.

(** X15.  There are never more runs than lines that start with a start
    string, whatever the input. *)
Theorem runs_bounded_by_start_lines contents self :
  init contents = Done self →
  get_num_partial_logs self ≤ start_lines contents.
Proof.
  intros (st & Hread & _ & ->)%init_Done.
  destruct (extract_settings_spec st) as (_ & _ & _ & Hpl & _).
  unfold get_num_partial_logs. rewrite Hpl.
  revert Hread. unfold read_file_to_dict. cbn [logfile new].
  destruct (read_loop _ _ _ _ _ _ _) as [st0| |] eqn:Hloop; cbn; [|done..].
  intros [= <-]. cbn. apply read_loop_runs_bound in Hloop. cbn in Hloop. lia.
Qed.

End RunBound.

(** ** The subscripts of the merge loop *)

Section MissingColumn.
Context `{E : Externals}.
Implicit Types (self st : File) (line : string) (contents : list string).
Implicit Types (dd pd : gmap string (list cell)).

(** When the aggregate has an entry for every name, the loop of lines 75-79
    can only fail at [partialLogContents[name]]. *)
Lemma merge_columns_KeyError df names dd pd e :
  (∀ n, n ∈ names → is_Some (dd !! n)) →
  merge_columns df names dd pd = Raised e →
  e = KeyError
  ∧ ∃ name, name ∈ names ∧ position name (df_columns df) = None.
Proof.
  revert dd pd. induction names as [|name names IH]; intros dd pd Hdd;
    [done|].
  cbn [merge_columns]. unfold getitem, df_getitem.
  destruct (Hdd name) as [old Hold]; [left|]. rewrite Hold. cbn.
  destruct (position name (df_columns df)) as [j|] eqn:Hpos; cbn.
  - intros Hm. apply IH in Hm as (-> & n & Hn & Hnone).
    + split; [done|]. exists n. split; [by right|done].
    + intros n Hn. apply lookup_insert_is_Some.
      destruct (decide (name = n)); [by left|right].
      split; [done|]. apply Hdd. by right.
  - intros [= <-]. split; [done|]. exists name. split; [left|done].
Qed.

Lemma absorb_KeyError self kws df e :
  keys_match self →
  absorb self kws df = Raised e →
  e = KeyError
  ∧ ∃ name, name ∈ kws ∧ position name (df_columns df) = None.
Proof.
  intros Hkeys. unfold absorb.
  destruct (merge_columns _ _ _ _) as [[??]| |] eqn:Hm; cbn; [done| |done].
  intros [= <-]. apply merge_columns_KeyError in Hm; [done|].
  intros n Hn. case_bool_decide as Hkw; cbn.
  - rewrite flushed_lookup. by rewrite decide_True.
  - apply Hkeys. destruct (decide (keywords self = kws)) as [->|]; done.
Qed.

Lemma read_loop_KeyError fuel self kf bf io tmp contents :
  keys_match self →
  read_loop fuel self kf bf io tmp contents = Raised KeyError →
  ∃ before header rest df name,
    contents = before ++ header :: rest
    ∧ announced kf before
    ∧ read_table (gather header rest EmptyString).1.1 = Some df
    ∧ name ∈ split header
    ∧ position name (df_columns df) = None.
Proof.
  revert self kf bf io tmp contents.
  induction fuel as [|fuel IH]; intros self kf bf io tmp [|line rest] Hkeys;
    rewrite ?read_loop_nil; try done.
  rewrite read_loop_cons. cbv zeta.
  assert (keys_match (if bf
                      then set_output_before_first_run self
                             (output_before_first_run self +:+ line)
                      else self)) as Hkeys1 by by destruct bf.
  assert (∀ kf' l before,
            announced kf' before → has_start l = kf' ∨ kf' = false →
            announced kf (l :: before)) as Hlast.
  { intros kf' l before Hann Hl. unfold announced in *.
    rewrite last_cons. destruct (last before); [done|].
    destruct Hl as [Hl|Hl]; congruence. }
  destruct kf.
  - destruct (gather_suffix line rest EmptyString) as [skipped Hs].
    destruct (gather line rest EmptyString) as [[tmpString l'] rest']
      eqn:Hg.
    cbn [fst snd] in Hs.
    destruct (read_table tmpString) as [df|] eqn:Hdf; [|done].
    destruct (absorb _ _ _) as [self1| |] eqn:Habs; cbn [bind]; [| |done].
    + apply (absorb_keys _ _ _ _ Hkeys1) in Habs.
      assert (∀ kf', has_start l' = kf' ∨ kf' = false →
                (∃ before header rest0 df0 name,
                   rest' = before ++ header :: rest0
                   ∧ announced kf' before
                   ∧ read_table (gather header rest0 EmptyString).1.1
                     = Some df0
                   ∧ name ∈ split header
                   ∧ position name (df_columns df0) = None) →
                ∃ before header rest0 df0 name,
                  line :: rest = before ++ header :: rest0
                  ∧ announced true before
                  ∧ read_table (gather header rest0 EmptyString).1.1
                    = Some df0
                  ∧ name ∈ split header
                  ∧ position name (df_columns df0) = None) as Hstep.
      { intros kf' Hl' (before & header & rest0 & df0 & name & -> & Hann
                        & Hrest).
        exists (skipped ++ l' :: before), header, rest0, df0, name.
        split; [by rewrite Hs, <- app_assoc|]. split; [|done].
        unfold announced. rewrite last_app.
        specialize (Hlast kf' l' before Hann Hl'). unfold announced in Hlast.
        rewrite last_cons in Hlast |- *. by destruct (last before). }
      destruct (has_start l') eqn:Hl'; intros Hloop%IH; try done.
      * apply (Hstep true); [by left|done].
      * apply (Hstep false); [by left|done].
    + intros [= ->]. apply (absorb_KeyError _ _ _ _ Hkeys1) in Habs
        as (_ & name & Hname & Hpos).
      exists [], line, rest, df, name.
      split; [done|]. split; [done|]. by rewrite Hg.
  - destruct (has_start line) eqn:Hline; intros Hloop%IH; try done;
      destruct Hloop as (before & header & rest0 & df0 & name & -> & Hann
                         & Hrest);
      exists (line :: before), header, rest0, df0, name;
      (split; [done|]); (split; [|done]).
    + apply (Hlast true); [done|by left].
    + apply (Hlast false); [done|by right].
Qed.

(** X3.  When the constructor fails at a subscript of the merge loop (lines
    75-79), the failing one is [partialLogContents[name]], never
    [self.data_dict[name]]: the input has a start line followed by a header
    line, the table parser has returned a table for the text gathered from
    that header on, and this table has no column for some word of the
    header. *)
Theorem KeyError_is_a_missing_column contents :
  init contents = Raised KeyError →
  ∃ before start header rest df name,
    contents = before ++ start :: header :: rest
    ∧ has_start start = true
    ∧ read_table (gather header rest EmptyString).1.1 = Some df
    ∧ name ∈ split header
    ∧ position name (df_columns df) = None.
Proof.
  intros Hinit.
  assert (read_loop (length contents) (set_logfile (new contents) [])
            false true false [] contents = Raised KeyError) as Hloop.
  { revert Hinit. unfold init, parse_simulation_settings.
    destruct (read_file_to_dict (new contents)) as [st|e|] eqn:Hread; cbn.
    - destruct (decide _) as [Hout|]; [|done].
      apply read_file_to_dict_frame in Hread as [Hlf _].
      destruct (read_file_to_dict_drained st Hlf) as (st2 & -> & Hout2).
      cbn. by destruct (decide _).
    - intros [= ->]. revert Hread. unfold read_file_to_dict.
      cbn [logfile new].
      by destruct (read_loop _ _ _ _ _ _ _); cbn; [done|intros [= ->]|done].
    - done. }
  apply read_loop_KeyError in Hloop
    as (before & header & rest & df & name & -> & Hann & Hrest).
  - unfold announced in Hann.
    destruct (last before) as [start|] eqn:Hlast; [|done].
    apply last_Some in Hlast as [before' ->].
    exists before', start, header, rest, df, name.
    split; [by rewrite <- app_assoc|done].
  - intros n. cbn. rewrite lookup_empty. split; [by intros []|].
    by intros ?%elem_of_nil.
Qed.

End MissingColumn.

(** ** The aggregate *)

Section Aggregate.
Context `{E : Externals}.
Implicit Types (self st : File) (b : block) (blocks : list block).

(** X16.  [flush_dict_and_set_new_keyword] restarts the aggregate and
    nothing else: afterwards [get(name)] is an empty column for every
    name of the new list and [None] for every other name, [names] is the
    new list sorted, and the runs, the narrative and the settings are as
    before. *)
Theorem flush_restarts_aggregate self kws :
  let self' := flush_dict_and_set_new_keyword self kws in
  (∀ name, get self' name (-1)
           = Done (if decide (name ∈ kws) then Some [] else None))
  ∧ names self' = Done (Some (sorted kws))
  ∧ partial_logs self' = partial_logs self
  ∧ (∀ name run, run ≠ (-1)%Z → get self' name run = get self name run)
  ∧ output_before_first_run self' = output_before_first_run self
  ∧ intermittent_output self' = intermittent_output self
  ∧ partial_simulation_settings self' = partial_simulation_settings self.
Proof.
  cbv zeta. split_and!; try done.
  - intros name. rewrite get_aggregate. cbn.
    by rewrite flushed_lookup, lookup_empty.
  - intros name run Hrun. unfold get. by rewrite !decide_False by done.
Qed.

(** X17.  After a change of the column set every column of the aggregate
    has the same length: the number of rows of the blocks that follow the
    last change, taken together. *)
Theorem aggregate_length_after_change pre earlier prev epoch K :
  log_ok pre (earlier ++ prev :: epoch) = true →
  forallb block_parses (earlier ++ prev :: epoch) = true →
  epoch ≠ [] →
  Forall (λ b, block_keywords b = K) epoch →
  block_keywords prev ≠ K →
  NoDup K →
  ∃ self, init (log_lines pre (earlier ++ prev :: epoch)) = Done self
    ∧ ∀ name, name ∈ K →
        ∃ agg, get self name (-1) = Done (Some agg)
          ∧ length agg = sum_list (block_nrows <$> epoch).
Proof.
  intros Hok Hparse Hne HK Hprev Hnd.
  rewrite (cons_middle prev), app_assoc in *.
  destruct (read_log pre (earlier ++ [prev]) epoch K)
    as (self & Hinit & Hinv); [done..| |].
  { left. by rewrite last_keywords_snoc. }
  destruct Hinv as (_ & _ & _ & _ & Hagg).
  exists self. split; [done|]. intros name Hname.
  exists (epoch_column epoch name).
  rewrite get_aggregate, (Hagg epoch Hne eq_refl), decide_True by done.
  split; [done|]. apply length_epoch_column with K; [|done..].
  rewrite forallb_app in Hparse. by apply andb_true_iff in Hparse as [_ ?].
Qed.

End Aggregate.

(** ** The further properties on the example logs *)

Module MoreExamples.
#[local] Existing Instance Demo.externals.
Import Demo Samples.

Lemma no_text_guard_witness :
  init [] = Raised ValueError
  ∧ (∀ st, read_file_to_dict (new no_run) = Done st →
       output_before_first_run st ≠ EmptyString
       ∧ init no_run = Done (extract_settings st))
  ∧ (∀ e, init no_run = Raised e →
       read_file_to_dict (new no_run) = Raised e).
Proof.
  split.
  - apply (proj1 (no_text_guard (E:=externals) [])). reflexivity.
  - apply (proj2 (no_text_guard (E:=externals) no_run)).
    vm_compute. discriminate.
Defined.

(** With a table parser that finds no column, the constructor fails on a
    log with one run, at the table's subscript. *)
Lemma KeyError_is_a_missing_column_witness :
  ∃ before start header rest df name,
    one_run = before ++ start :: header :: rest
    ∧ has_start start = true
    ∧ read_table_no_columns (gather header rest EmptyString).1.1 = Some df
    ∧ name ∈ split header
    ∧ position name (df_columns df) = None.
Proof.
  apply (KeyError_is_a_missing_column (E:=no_columns) one_run).
  vm_compute. reflexivity.
Defined.

Lemma to_dataframe_runs_witness :
  (∀ run, to_dataframe (constructed no_run) run = Raised IndexError)
  ∧ ∃ pd, to_dataframe (constructed three_runs) (-1) = Done pd
      ∧ last (partial_logs (constructed three_runs)) = Some pd
      ∧ ∀ name,
          get (constructed three_runs) name
            (Z.of_nat (length (partial_logs (constructed three_runs))) - 1)
          = Done (pd !! name).
Proof.
  split.
  - apply (proj1 (to_dataframe_runs (E:=externals) (constructed no_run))).
    vm_compute. reflexivity.
  - apply (proj2 (to_dataframe_runs (E:=externals) (constructed three_runs))).
    vm_compute. discriminate.
Defined.

Lemma get_simulation_settings_constructed_witness :
  get_simulation_settings (constructed three_runs) (-1)
    = Done (simulation_settings (constructed three_runs))
  ∧ get_simulation_settings (constructed three_runs) 0
    = Done (overlay ∅ (splitlines (output_before_first_run
                                     (constructed three_runs)))).
Proof.
  apply (get_simulation_settings_constructed (E:=externals) three_runs).
  vm_compute. reflexivity.
Defined.

Lemma get_simulation_settings_bounds_witness :
  let n := Z.of_nat (max 1 (get_num_partial_logs (constructed three_runs))) in
  ((- n ≤ 3 < n)%Z →
   ∃ s, get_simulation_settings (constructed three_runs) 3 = Done s)
  ∧ ((3 < - n ∨ n ≤ 3)%Z →
     get_simulation_settings (constructed three_runs) 3 = Raised IndexError).
Proof.
  apply (get_simulation_settings_bounds (E:=externals) three_runs
           (constructed three_runs) 3%Z).
  vm_compute. reflexivity.
Defined.

Lemma read_again_drops_chunk_witness :
  read_file_to_dict (constructed three_runs)
  = Done (set_intermittent_output (constructed three_runs)
            (tail (intermittent_output (constructed three_runs)))).
Proof.
  apply (read_again_drops_chunk (E:=externals) three_runs).
  vm_compute. reflexivity.
Defined.

Lemma names_are_aggregate_columns_witness :
  ∃ l, names (constructed three_runs) = Done (Some l)
    ∧ Sorted String.le l
    ∧ ∀ name, name ∈ l ↔
        ∃ v, get (constructed three_runs) name (-1) = Done (Some v).
Proof.
  apply (names_are_aggregate_columns (E:=externals) three_runs).
  vm_compute. reflexivity.
Defined.

Lemma get_keywords_of_run_witness :
  Sorted String.le ["Press"; "Step"; "Temp"]
  ∧ NoDup ["Press"; "Step"; "Temp"]
  ∧ ∀ name, name ∈ ["Press"; "Step"; "Temp"] ↔
      ∃ v, get (constructed three_runs) name 2 = Done (Some v).
Proof.
  apply (get_keywords_of_run (E:=externals) (constructed three_runs) 2%Z).
  - discriminate.
  - vm_compute. reflexivity.
Defined.

Lemma runs_of_log_witness :
  ∃ self, init (log_lines header (run1 :: [run2; run3])) = Done self
    ∧ get_num_partial_logs self = length (run1 :: [run2; run3])
    ∧ names self
      = Done (Some (sorted (last_keywords (run1 :: [run2; run3]))))
    ∧ ∀ k b, (run1 :: [run2; run3]) !! k = Some b →
        (∃ l, get_keywords self (Z.of_nat k) = Done (Some l)
           ∧ ∀ name, name ∈ l ↔ name ∈ block_keywords b)
        ∧ ∀ name, get self name (Z.of_nat k)
                  = Done (if decide (name ∈ block_keywords b)
                          then Some (block_column b name) else None).
Proof.
  apply (runs_of_log (E:=externals) header run1 [run2; run3]).
  - vm_compute. reflexivity.
  - vm_compute. reflexivity.
Defined.

Lemma chunks_of_log_witness :
  ∃ self, init (log_lines header (run1 :: [run2; run3])) = Done self
    ∧ intermittent_output self = chunks_between (run1 :: [run2; run3]).
Proof.
  apply (chunks_of_log (E:=externals) header run1 [run2; run3]).
  - vm_compute. reflexivity.
  - vm_compute. reflexivity.
Defined.

Lemma settings_of_log_witness :
  ∃ self, init (log_lines header (run1 :: [run2; run3])) = Done self
    ∧ partial_simulation_settings self
      = overlay ∅ (splitlines (text (header ++ [b_start run1])))
        :: snapshots_from
             (overlay ∅ (splitlines (text (header ++ [b_start run1]))))
             (chunks_between (run1 :: [run2; run3])).
Proof.
  apply (settings_of_log (E:=externals) header run1 [run2; run3]).
  - vm_compute. reflexivity.
  - vm_compute. reflexivity.
Defined.

Lemma parse_line_single_witness :
  parse_line "  pair_style lj/cut 2.5 # cutoff"
  = {[ "pair_style" :=
         setting_of_parts
           (strip <$> tail (split (hd EmptyString
              (split_on "#"%char "  pair_style lj/cut 2.5 # cutoff")))) ]}.
Proof.
  apply (parse_line_single (E:=externals)
           "  pair_style lj/cut 2.5 # cutoff" "pair_style").
  - unfold sim_settings_kws. set_solver.
  - vm_compute. reflexivity.
Defined.

Lemma overlay_last_wins_witness :
  overlay (∅ : gmap string (setting_of string))
    ([line "timestep 0.005"] ++ line "timestep 0.01" :: [line "units lj"])
    !! "timestep" = Some (SNum "0.01").
Proof.
  apply (overlay_last_wins (E:=externals)).
  - vm_compute. reflexivity.
  - intros l Hl. apply list_elem_of_singleton in Hl as ->.
    vm_compute. reflexivity.
Defined.

Lemma runs_bounded_by_start_lines_witness :
  get_num_partial_logs (constructed three_runs) ≤ start_lines three_runs.
Proof.
  apply (runs_bounded_by_start_lines (E:=externals) three_runs).
  vm_compute. reflexivity.
Defined.

Lemma aggregate_length_after_change_witness :
  ∃ self, init (log_lines header ([run1] ++ run2 :: [run3])) = Done self
    ∧ ∀ name, name ∈ ["Step"; "Temp"; "Press"] →
        ∃ agg, get self name (-1) = Done (Some agg)
          ∧ length agg = sum_list (block_nrows <$> [run3]).
Proof.
  refine (aggregate_length_after_change (E:=externals) header [run1] run2
            [run3] ["Step"; "Temp"; "Press"] _ _ _ _ _ _).
  - vm_compute. reflexivity.
  - vm_compute. reflexivity.
  - discriminate.
  - repeat constructor.
  - vm_compute. discriminate.
  - apply NoDup_ListNoDup; repeat constructor; cbn; intuition discriminate.
Defined.

(** The three snapshots of [three_runs]. *)
Example three_runs_settings :
  map_to_list <$> partial_simulation_settings (constructed three_runs)
  = [ [("units", SStr "lj"); ("timestep", SNum "0.005")];
      [("units", SStr "lj"); ("timestep", SNum "0.01")];
      [("units", SStr "lj"); ("timestep", SNum "0.01");
       ("pair_style", SStr "lj/cut 2.5")] ].
Proof. vm_compute. reflexivity. Qed.

End MoreExamples.
